(** * rescan: the scan batcher, the start-up reconciliation and their stores

    A shallow embedding of [src/main.py], [src/plex.py], [src/database.py]
    and [src/settings.py], followed by the properties proved about it.

    Conventions.
    - A Plex library key is an integer ([Z]): the values come from plexapi's
      [section.key], the database column is [INTEGER] and
      [send_scan_request] takes an [int]; on such values the [int(...)]
      conversions of [main.py] are the identity and the f-string
      [f"{library_key}:{parent_dir}"] prints the key in decimal.
    - The dictionary [pending_scans] is a finite map ([gmap]); what is
      proved of it never depends on the order of its iteration. The
      dictionaries of [Plex.__init__], whose items [main] iterates over,
      are lists of items in the order of insertion.
    - Paths are those of [pathlib] on POSIX.
    - Time is counted in ticks ([Z]); [second] ticks make one second, so that
      [time.sleep(1)] lasts [second] ticks. *)

From Stdlib Require Import ZArith Ascii String List Bool Lia.
From stdpp Require Import base decidable option list sorting strings pretty gmap fin_maps.

Local Open Scope Z_scope.

(** ** Strings as [pathlib] and [str] use them *)

Module PyStr.

(** [s.startswith(p)] *)
Definition startswith (s p : string) : bool := String.prefix p s.

(** One character of [str.lower()], on ASCII letters. *)
Definition lower_ascii (c : ascii) : ascii :=
  let n := nat_of_ascii c in
  if ((65 <=? n)%nat && (n <=? 90)%nat)%bool then ascii_of_nat (n + 32) else c.

(** [s.lower()] *)
Fixpoint lower (s : string) : string :=
  match s with
  | EmptyString => EmptyString
  | String c rest => String (lower_ascii c) (lower rest)
  end.

(** [s.rfind(c)] with [None] for Python's [-1]: scanning from position [i],
    the last position of [c]. *)
Fixpoint rfind_from (c : ascii) (s : string) (i : nat) : option nat :=
  match s with
  | EmptyString => None
  | String d rest =>
      match rfind_from c rest (S i) with
      | Some j => Some j
      | None => if Ascii.eqb c d then Some i else None
      end
  end.

Definition rfind (c : ascii) (s : string) : option nat := rfind_from c s 0.

(** [PurePath.suffix] of a final path component [name]:
    [i = name.rfind('.')]; [name[i:]] when [0 < i < len(name) - 1], else ['']. *)
Definition suffix (name : string) : string :=
  match rfind "."%char name with
  | Some i =>
      if ((0 <? i)%nat && (i <? String.length name - 1)%nat)%bool
      then String.substring i (String.length name - i) name
      else EmptyString
  | None => EmptyString
  end.

(** [x in xs] for a list of strings *)
Definition str_in (x : string) (xs : list string) : bool :=
  existsb (String.eqb x) xs.

End PyStr.

(** ** [pathlib] on POSIX, as far as [main.py] uses it on the path of an
    event: [Path(p).suffix] and [str(Path(p).parent)] *)

Module PyPath.

(** [path.split("/")] *)
Fixpoint split (path : string) : list string :=
  match path with
  | EmptyString => [EmptyString]
  | String c rest =>
      if Ascii.eqb c "/" then EmptyString :: split rest
      else
        match split rest with
        | part :: parts => String c part :: parts
        | [] => [String c EmptyString]
        end
  end.

(** The root that [posixpath.splitroot] finds: two slashes when the
    path begins with exactly two, one when it begins with any other
    number of them. *)
Definition root (path : string) : string :=
  match path with
  | String "/" (String "/" (String "/" _)) => "/"
  | String "/" (String "/" _) => "//"
  | String "/" _ => "/"
  | _ => ""
  end.

(** The components after the root: [[x for x in rel.split("/") if x
    and x != "."]]. The slashes that follow the root give empty
    components, which are dropped, so that the whole path can be split. *)
Definition tail (path : string) : list string :=
  List.filter (fun x => negb (String.eqb x "") && negb (String.eqb x "."))
    (split path).

(** [PurePath.name]: the last component, [""] when there is none. *)
Definition name (path : string) : string := List.last (tail path) "".

(** [PurePath.suffix] *)
Definition suffix (path : string) : string := PyStr.suffix (name path).

(** [str] of the path with the given root and components. *)
Definition str (root : string) (tail : list string) : string :=
  match root, tail with
  | EmptyString, [] => "."
  | _, _ => root +:+ String.concat "/" tail
  end.

(** [str(Path(path).parent)]: the last component dropped; a path with
    no component is its own parent. *)
Definition parent (path : string) : string :=
  str (root path) (removelast (tail path)).

End PyPath.

(** ** [src/database.py]: the store of known files *)

Module Database.

(** One row of [plex_library_files]. The [id] column ([INTEGER PRIMARY KEY
    AUTOINCREMENT]) is filled by SQLite and never read by the program. *)
Record Row := mkRow {
  library_key : Z;
  file_path : string
}.

(** What a path of the file system holds, as far as [DatabaseManager] can
    tell: a directory, or an SQLite file whose [plex_library_files] table
    is missing ([None]) or has the given rows, oldest first. *)
Inductive node :=
  | Directory
  | DbFile (plex_library_files : option (list Row)).

Record DatabaseManager := mkDatabaseManager {
  db_path : string;
  connection : bool   (* [self.connection] is not [None] *)
}.

(** [os.path.exists(path)] *)
Definition os_path_exists (path : string) (disk : gmap string node) : bool :=
  bool_decide (is_Some (disk !! path)).

(** [os.remove(path)]; [None] stands for [OSError]. *)
Definition os_remove (path : string) (disk : gmap string node)
  : option (gmap string node) :=
  match disk !! path with
  | Some (DbFile _) => Some (delete path disk)
  | Some Directory => None
  | None => None
  end.

(** [sqlite3.connect(path)]: opens the file, creating an empty database
    when there is none; [None] stands for [sqlite3.Error]. *)
Definition sqlite3_connect (path : string) (disk : gmap string node)
  : option (gmap string node) :=
  match disk !! path with
  | Some (DbFile _) => Some disk
  | Some Directory => None
  | None => Some (<[path := DbFile None]> disk)
  end.

(** [CREATE TABLE IF NOT EXISTS plex_library_files (...)] *)
Definition create_table_if_not_exists (n : node) : node :=
  match n with
  | DbFile None => DbFile (Some [])
  | other => other
  end.

(** [DatabaseManager.__init__] and [DatabaseManager.connect]: the manager
    and the file system it leaves. *)
Definition connect (path : string) (disk : gmap string node)
  : DatabaseManager * gmap string node :=
  let removed :=
    if os_path_exists path disk then os_remove path disk else Some disk in
  match removed with
  | None => (mkDatabaseManager path false, disk)          (* except OSError *)
  | Some disk1 =>
      match sqlite3_connect path disk1 with
      | None => (mkDatabaseManager path false, disk1)     (* except sqlite3.Error *)
      | Some disk2 =>
          (mkDatabaseManager path true,
           alter create_table_if_not_exists path disk2)
      end
  end.

(** [INSERT OR IGNORE INTO plex_library_files (library_key, file_path)
    VALUES (?, ?)] for one pair: [file_path] is declared [UNIQUE], so the
    row is ignored when some row already has this path. *)
Definition insert_or_ignore (rows : list Row) (kp : Z * string) : list Row :=
  if existsb (fun r => String.eqb (file_path r) (snd kp)) rows
  then rows
  else rows ++ [mkRow (fst kp) (snd kp)].

(** [cursor.executemany(...)] over the pairs of [data], in order. *)
Definition executemany (data : list (Z * string)) (rows : list Row) : list Row :=
  fold_left insert_or_ignore data rows.

(** [DatabaseManager.insert_plex_library_files]. Without a connection, or
    without the table ([sqlite3.Error], caught), nothing is written. *)
Definition insert_plex_library_files
    (data : list (Z * string)) (db : DatabaseManager) (disk : gmap string node)
  : gmap string node :=
  if connection db then
    match disk !! db_path db with
    | Some (DbFile (Some rows)) =>
        <[db_path db := DbFile (Some (executemany data rows))]> disk
    | _ => disk
    end
  else disk.

(** The rows a manager sees. *)
Definition rows_of (db : DatabaseManager) (disk : gmap string node) : list Row :=
  match disk !! db_path db with
  | Some (DbFile (Some rows)) => rows
  | _ => []
  end.

(** [SELECT 1 FROM plex_library_files WHERE library_key = ? AND file_path = ?]
    followed by [fetchone()]: is there such a row? *)
Definition select_cached (rows : list Row) (k : Z) (p : string) : bool :=
  existsb (fun r => (library_key r =? k) && String.eqb (file_path r) p) rows.

End Database.

(** ** [src/settings.py] *)

Module Settings.

Record PlexSettings := mkPlexSettings {
  url : string;
  token : string
}.

Record Settings := mkSettings {
  log_level : string;
  media_extensions : list string;
  library_paths : list string;
  plex : PlexSettings
}.

Definition default_plex : PlexSettings :=
  mkPlexSettings "http://localhost:32400" "".

Definition default_media_extensions : list string :=
  [".mkv"; ".mp4"; ".avi"; ".mov"; ".wmv"; ".flv"; ".webm";
   ".mp3"; ".flac"; ".wav"; ".aac"; ".ogg"; ".m4a"]%string.

(** [Settings()] with no [APP_] variable in the environment. *)
Definition default_settings : Settings :=
  mkSettings "INFO" default_media_extensions ["/path/to/plex/library"%string]
    default_plex.

(** A parsed JSON document. *)
#[local] Unset Elimination Schemes.
Inductive json :=
  | JNull
  | JBool (b : bool)
  | JNum (n : Z)
  | JStr (s : string)
  | JArr (items : list json)
  | JObj (members : list (string * json)).
#[local] Set Elimination Schemes.

(** The value of a member of a JSON object; of a repeated name the last
    one counts. *)
Fixpoint member (name : string) (members : list (string * json)) : option json :=
  match members with
  | [] => None
  | (n, v) :: rest =>
      match member name rest with
      | Some later => Some later
      | None => if String.eqb n name then Some v else None
      end
  end.

(** Validation of a [str] field; [None] stands for a [ValidationError]. *)
Definition as_str (v : json) : option string :=
  match v with JStr s => Some s | _ => None end.

(** Validation of a [List[str]] field. *)
Definition as_str_list (v : json) : option (list string) :=
  match v with
  | JArr items => mapM as_str items
  | _ => None
  end.

(** A field that is absent takes its default, one that is present is
    validated. *)
Definition field {A} (validate : json -> option A) (default : A)
    (name : string) (members : list (string * json)) : option A :=
  match member name members with
  | None => Some default
  | Some v => validate v
  end.

(** Validation of the [plex] field, a [PlexSettings] model. *)
Definition as_plex (v : json) : option PlexSettings :=
  match v with
  | JObj members =>
      u ← field as_str (url default_plex) "url" members;
      t ← field as_str (token default_plex) "token" members;
      Some (mkPlexSettings u t)
  | _ => None
  end.

(** [Settings.model_validate_json] on a parsed document. The model
    declares four fields and [extra="ignore"]: any other member of the
    document is dropped. *)
Definition model_validate_json (doc : json) : option Settings :=
  match doc with
  | JObj members =>
      l ← field as_str (log_level default_settings) "log_level" members;
      m ← field as_str_list (media_extensions default_settings)
            "media_extensions" members;
      p ← field as_str_list (library_paths default_settings)
            "library_paths" members;
      x ← field as_plex (plex default_settings) "plex" members;
      Some (mkSettings l m p x)
  | _ => None
  end.

(** [load_or_create_settings]: [file] is the parsed content of
    config/settings.json, [None] when the file does not exist (the defaults
    are then written to it). *)
Definition load_or_create_settings (file : option json) : option Settings :=
  match file with
  | Some doc => model_validate_json doc
  | None => Some default_settings
  end.

(** [PlexSettings.model_dump_json], as a document. *)
Definition dump_plex (x : PlexSettings) : json :=
  JObj [("url"%string, JStr (url x)); ("token"%string, JStr (token x))].

(** [Settings.model_dump_json]: the four fields, in the order of their
    declaration. *)
Definition model_dump_json (s : Settings) : json :=
  JObj [("log_level"%string, JStr (log_level s));
        ("media_extensions"%string, JArr (map JStr (media_extensions s)));
        ("library_paths"%string, JArr (map JStr (library_paths s)));
        ("plex"%string, dump_plex (plex s))].

(** [load_or_create_settings] with the file it leaves: a file that exists
    is only read; when there is none the defaults are written. *)
Definition load_or_create_settings_file (file : option json)
  : option Settings * option json :=
  match file with
  | Some doc => (model_validate_json doc, Some doc)
  | None => (Some default_settings, Some (model_dump_json default_settings))
  end.

End Settings.

(** ** [src/plex.py]: library sections and path resolution *)

Module Plex.

Record LibraryInfo := mkLibraryInfo {
  title : string;
  key : Z;
  locations : list string;
  library_type : string;
  agent : string;
  scanner : string
}.

(** The inner loop of [find_library_by_path]:
    [for location in section.locations: if file_path.startswith(location)]. *)
Fixpoint location_matches (file_path : string) (locs : list string) : bool :=
  match locs with
  | [] => false
  | location :: rest =>
      if PyStr.startswith file_path location then true
      else location_matches file_path rest
  end.

(** [Plex.find_library_by_path]: the outer loop returns the section at the
    first hit of the inner loop, [None] when both loops run out. *)
Fixpoint find_library_by_path (sections : list LibraryInfo) (file_path : string)
  : option LibraryInfo :=
  match sections with
  | [] => None
  | section :: rest =>
      if location_matches file_path (locations section) then Some section
      else find_library_by_path rest file_path
  end.

(** *** Scan requests and the start-up reconciliation *)

(** The exceptions the code tells apart. *)
Inductive exn :=
  | PlexApiException
  | OtherException.

#[export] Instance exn_eq_dec : EqDecision exn.
Proof. solve_decision. Defined.

Inductive result (A : Type) :=
  | Return (a : A)
  | Raise (e : exn).
Arguments Return {A} a.
Arguments Raise {A} e.

(** A scan request: one call of [send_scan_request(library_key, file_path)]. *)
Definition Request : Type := Z * string.

(** Code that calls [send_scan_request] and may raise: it maps the
    requests made so far to the requests made after it, with its result. *)
Definition M (A : Type) : Type := list Request -> list Request * result A.

Definition ret {A} (a : A) : M A := fun log => (log, Return a).

Definition raise {A} (e : exn) : M A := fun log => (log, Raise e).

(** Sequencing: an exception of [m] skips [f]. *)
Definition bind {A B} (f : A -> M B) (m : M A) : M B :=
  fun log =>
    match m log with
    | (log', Return a) => f a log'
    | (log', Raise e) => (log', Raise e)
    end.

#[export] Instance M_ret : MRet M := @ret.
#[export] Instance M_bind : MBind M := @bind.

(** [for x in xs: body(x)] *)
Fixpoint for_each {X} (xs : list X) (body : X -> M unit) : M unit :=
  match xs with
  | [] => ret tt
  | x :: rest => body x ;; for_each rest body
  end.

(** [try: m / except PlexApiException: log / except Exception: log] *)
Definition catch_all (m : M unit) : M unit :=
  fun log => ((m log).1, Return tt).

(** [try: m / except PlexApiException: log] *)
Definition catch_plex (m : M unit) : M unit :=
  fun log =>
    match m log with
    | (log', Raise PlexApiException) => (log', Return tt)
    | other => other
    end.

Record Plex := mkPlex {
  db_rows : list Database.Row;        (* what [self.db.cursor] reads *)
  media_extensions : list string;
  local_library_paths : list string;
  server : bool;                      (* [self.server] is not [None] *)
  library_sections : list LibraryInfo
}.

Section Reconciliation.

(** The world outside the program. *)
Variable path_exists : string -> bool.
  (* [Path(p).exists()] *)
Variable os_walk : string -> list (string * list string * list string).
  (* [os.walk(p)]: the triples (root, dirs, files) *)
Variable path_str : string -> string -> string.
  (* [str(Path(root) / file)] *)
Variable select_raises : Z -> string -> bool.
  (* the [SELECT] for this key and path raises *)
Variable update_outcome : Z -> string -> option exn.
  (* what [sectionByID(key).update(path=...)] raises, if anything *)

(** [Plex.send_scan_request] *)
Definition send_scan_request (self : Plex) (library_key : Z) (file_path : string)
  : M unit :=
  fun log =>
    let log := log ++ [(library_key, file_path)] in
    if negb (server self) then ret tt log
    else
      catch_plex
        (match update_outcome library_key file_path with
         | None => ret tt
         | Some e => raise e
         end) log.

(** The body of the innermost loop of [full_scan], for one [file] of the
    directory [root]. The file name is the last component of
    [Path(root) / file], so [suffix] and [name] are read off [file]. *)
Definition scan_file (self : Plex) (root file : string) : M unit :=
  let file_path := path_str root file in
  if PyStr.str_in (PyStr.lower (PyStr.suffix file)) (media_extensions self)
     && negb (PyStr.startswith file ".")
  then
    match find_library_by_path (library_sections self) file_path with
    | Some library =>
        is_cached ← (if select_raises (key library) file_path
                     then raise OtherException
                     else ret (Database.select_cached (db_rows self)
                                 (key library) file_path));
        if negb is_cached
        then send_scan_request self (key library) file_path
        else ret tt
    | None => ret tt
    end
  else ret tt.

(** The [try] block of [full_scan]. *)
Definition full_scan_walk (self : Plex) : M unit :=
  for_each (local_library_paths self) (fun library_path =>
    if negb (path_exists library_path) then ret tt
    else
      for_each (os_walk library_path) (fun '(root, dirs, files) =>
        for_each files (fun file => scan_file self root file))).

(** [Plex.full_scan] *)
Definition full_scan (self : Plex) : M unit :=
  if negb (server self) then ret tt
  else catch_all (full_scan_walk self).

End Reconciliation.

(** *** The server, the dictionaries of [__init__] and the cache *)

(** A Python [dict] with string keys, as the list of its items in the
    order of insertion: [d[k] = v] replaces the value of a key that is
    there, in place, and appends a key that is not. *)
Fixpoint dict_set {V} (k : string) (v : V) (d : list (string * V))
  : list (string * V) :=
  match d with
  | [] => [(k, v)]
  | (k', v') :: rest =>
      if String.eqb k' k then (k, v) :: rest
      else (k', v') :: dict_set k v rest
  end.

(** [d.get(k)] *)
Fixpoint dict_get {V} (k : string) (d : list (string * V)) : option V :=
  match d with
  | [] => None
  | (k', v) :: rest => if String.eqb k' k then Some v else dict_get k rest
  end.

(** [Plex.get_library_ids]: [{section.title: section.key for section in sections}] *)
Definition get_library_ids (sections : list LibraryInfo) : list (string * Z) :=
  fold_left (fun d section => dict_set (title section) (key section) d)
    sections [].

(** [Plex.get_library_locations] *)
Definition get_library_locations (sections : list LibraryInfo)
  : list (string * list string) :=
  fold_left (fun d section => dict_set (title section) (locations section) d)
    sections [].

(** [Plex.get_libraries_by_type] *)
Definition get_libraries_by_type (sections : list LibraryInfo)
    (library_type' : string) : list LibraryInfo :=
  List.filter (fun section => String.eqb (library_type section) library_type')
    sections.

(** What the server holds. A part has a file or none ([part.file]), a
    media its parts, a film or an episode its media, a show its episodes;
    a section has its description and its items ([section.all()]). *)
Inductive Item :=
  | ShowItem (episodes : list (list (list (option string))))
  | VideoItem (media : list (list (option string))).

Record ServerSection := mkServerSection {
  info : LibraryInfo;
  all_items : list Item
}.

(** [Plex.get_library_sections], for a server that is not connected
    ([None]) or holds the given sections. *)
Definition get_library_sections (server : option (list ServerSection))
  : list LibraryInfo :=
  match server with
  | None => []
  | Some sections => map info sections
  end.

(** [Plex.__init__], given what [connect] found. *)
Definition init (settings : Settings.Settings) (rows : list Database.Row)
    (server : option (list ServerSection)) : Plex :=
  mkPlex rows (Settings.media_extensions settings)
    (Settings.library_paths settings)
    (bool_decide (is_Some server)) (get_library_sections server).

(** [if part.file:] a file that is there and not the empty string. *)
Definition part_file (part : option string) : option string :=
  match part with
  | Some EmptyString => None
  | other => other
  end.

(** The two innermost loops of [cache_library_files]: the files of the
    parts of the media of one film or episode. *)
Definition video_files (media : list (list (option string))) : list string :=
  flat_map (fun parts => omap part_file parts) media.

(** The loops of [cache_library_files] over the items of a section, the
    branch chosen by [section.type == "show"]. An item of the other kind
    has not the attribute the branch reads ([AttributeError]): [None]. *)
Definition item_files (show_branch : bool) (item : Item) : option (list string) :=
  match show_branch, item with
  | true, ShowItem episodes => Some (flat_map video_files episodes)
  | false, VideoItem media => Some (video_files media)
  | _, _ => None
  end.

Definition section_files (section : ServerSection) : option (list string) :=
  match mapM (item_files (String.eqb (library_type (info section)) "show"))
          (all_items section) with
  | Some files => Some (concat files)
  | None => None
  end.

(** [server.library.sectionByID(library_key)]; [None] stands for its
    [NotFound], a [PlexApiException]. *)
Definition sectionByID (sections : list ServerSection) (library_key : Z)
  : option ServerSection :=
  List.find (fun section => key (info section) =? library_key) sections.

(** [Plex.cache_library_files], on the disk of the database manager
    [db]: the disk it leaves, or the exception it lets through. *)
Definition cache_library_files (server : option (list ServerSection))
    (db : Database.DatabaseManager) (library_key : Z)
    (disk : gmap string Database.node) : result (gmap string Database.node) :=
  match server with
  | None => Return disk
  | Some sections =>
      match sectionByID sections library_key with
      | None => Return disk                     (* except PlexApiException *)
      | Some section =>
          match section_files section with
          | None => Raise OtherException
          | Some files =>
              Return (Database.insert_plex_library_files
                        (map (pair library_key) files) db disk)
          end
      end
  end.

End Plex.

(** ** [src/main.py]: the batch manager

    The manager on a time line. A call of [add_scan_request], a call of
    [shutdown] and a turn of the [while] loop of [_batch_processor] are one
    step each, and a step takes no time: the requests of a turn are made at
    the time of its loop test, and between two loop tests of a worker lies
    the [time.sleep(1)], one second. The calls of the watcher come from one
    thread, one after another; [Threads] below looks at what happens when
    they do not. *)

Module Main.

Record PendingScan := mkPendingScan {
  library_key : Z;
  parent_dir : string;
  timestamp : Z
}.

#[export] Instance PendingScan_eq_dec : EqDecision PendingScan.
Proof. solve_decision. Defined.

(** [f"{library_key}:{parent_dir}"] *)
Definition scan_key (library_key : Z) (parent_dir : string) : string :=
  pretty library_key +:+ ":" +:+ parent_dir.

(** Who called [plex.send_scan_request]: the loop of [_batch_processor]
    or the loop of [shutdown]. *)
Inductive caller :=
  | Worker
  | Shutdown.

#[export] Instance caller_eq_dec : EqDecision caller.
Proof. solve_decision. Defined.

(** One call [plex.send_scan_request(int(scan.library_key), scan.parent_dir)],
    with its caller and its time. What the call raises is caught and logged
    by the caller, request by request. *)
Record ScanRequest := mkScanRequest {
  sent_by : caller;
  sent_at : Z;
  sent_key : Z;
  sent_dir : string
}.

#[export] Instance ScanRequest_eq_dec : EqDecision ScanRequest.
Proof. solve_decision. Defined.

(** The manager together with the requests it has made on [self.plex],
    oldest first. [timer_thread] is [None] when [self.timer_thread] is
    [None] or not alive, and [Some w] when the thread is alive and tests
    the condition of its [while] loop next at time [w]. *)
Record BatchScanManager := mkBatchScanManager {
  plex : list ScanRequest;
  delay_seconds : Z;
  pending_scans : gmap string PendingScan;
  timer_thread : option Z;
  stop_event : bool
}.

(** [BatchScanManager.__init__] *)
Definition init (delay_seconds : Z) : BatchScanManager :=
  mkBatchScanManager [] delay_seconds ∅ None false.

Record RescanEventHandler := mkRescanEventHandler {
  settings : Settings.Settings;
  batch_manager : BatchScanManager
}.

(** [RescanEventHandler.__init__] *)
Definition handler_init (settings : Settings.Settings) : RescanEventHandler :=
  mkRescanEventHandler settings (init 30).

Section Timed.

(** The number of ticks in one second. *)
Variable second : Z.

(** [BatchScanManager.add_scan_request] at the time [current_time]. A
    thread that is started tests its loop condition first at that time. *)
Definition add_scan_request (current_time : Z) (library_key : Z)
    (parent_dir : string) (self : BatchScanManager) : BatchScanManager :=
  let pending :=
    <[scan_key library_key parent_dir :=
        mkPendingScan library_key parent_dir current_time]>
      (pending_scans self) in
  let thread :=
    match timer_thread self with
    | None => Some current_time
    | Some w => Some w
    end in
  mkBatchScanManager (plex self) (delay_seconds self) pending thread
    (stop_event self).

(** [current_time - pending_scan.timestamp >= self.delay_seconds] *)
Definition ready (self : BatchScanManager) (current_time : Z)
    (entry : string * PendingScan) : Prop :=
  delay_seconds self * second <= current_time - timestamp entry.2.

#[export] Instance ready_dec self current_time entry :
  Decision (ready self current_time entry).
Proof. unfold ready. apply _. Defined.

Definition request_of (who : caller) (current_time : Z) (scan : PendingScan)
  : ScanRequest :=
  mkScanRequest who current_time (library_key scan) (parent_dir scan).

(** One turn of the [while] loop of [_batch_processor], begun at
    [current_time]: the test of the stop flag, the removal of the ready
    entries, their requests, the test for an empty map, the sleep. *)
Definition batch_pass (current_time : Z) (self : BatchScanManager)
  : BatchScanManager :=
  if stop_event self then
    mkBatchScanManager (plex self) (delay_seconds self) (pending_scans self)
      None (stop_event self)
  else
    let ready_scans :=
      (map_to_list (filter (ready self current_time) (pending_scans self))).*2 in
    let remaining :=
      filter (fun entry => ~ ready self current_time entry) (pending_scans self) in
    let plex' := plex self ++ map (request_of Worker current_time) ready_scans in
    if decide (remaining = ∅) then
      mkBatchScanManager plex' (delay_seconds self) remaining None
        (stop_event self)
    else
      mkBatchScanManager plex' (delay_seconds self) remaining
        (Some (current_time + second)) (stop_event self).

(** [BatchScanManager._batch_processor], the loop: at most [n] turns,
    those that begin no later than [limit]. The loop ends for good when
    the thread does ([timer_thread] is [None]). *)
Fixpoint batch_processor (n : nat) (limit : Z) (self : BatchScanManager)
  : BatchScanManager :=
  match n with
  | O => self
  | S n' =>
      match timer_thread self with
      | Some w =>
          if w <=? limit then batch_processor n' limit (batch_pass w self)
          else self
      | None => self
      end
  end.

(** The worker runs until the time [limit]: as the turns of a live worker
    are [second] ticks apart, [(limit - w) / second + 1] turns are all
    there can be. *)
Definition advance (limit : Z) (self : BatchScanManager) : BatchScanManager :=
  match timer_thread self with
  | Some w => batch_processor (Z.to_nat ((limit - w) / second + 1)) limit self
  | None => self
  end.

(** A call of [add_scan_request] by the watcher. When a turn of the
    worker is due at the very tick of the call, [after_worker] tells
    which of the two comes first. *)
Record Call := mkCall {
  call_time : Z;
  call_key : Z;
  call_dir : string;
  after_worker : bool
}.

Definition worker_limit (c : Call) : Z :=
  if after_worker c then call_time c else call_time c - 1.

(** The calls of the watcher, in order, with the turns of the worker
    that are due in between. *)
Fixpoint run (calls : list Call) (self : BatchScanManager) : BatchScanManager :=
  match calls with
  | [] => self
  | c :: rest =>
      run rest
        (add_scan_request (call_time c) (call_key c) (call_dir c)
           (advance (worker_limit c) self))
  end.

(** [BatchScanManager.shutdown] at the time [now]: the manager it leaves
    and the time at which it returns. [join(timeout=5)] gives the worker
    five seconds; a worker whose next loop test falls within them finds
    the flag set there, and ends. *)
Definition shutdown (now : Z) (self : BatchScanManager) : BatchScanManager * Z :=
  let remaining_scans := (map_to_list (pending_scans self)).*2 in
  let flushed :=
    mkBatchScanManager
      (plex self ++ map (request_of Shutdown now) remaining_scans)
      (delay_seconds self) ∅ (timer_thread self) true in
  match timer_thread self with
  | Some w =>
      if w <=? now + 5 * second
      then (batch_pass w flushed, Z.max now w)
      else (flushed, now + 5 * second)
  | None => (flushed, now)
  end.

End Timed.

(** A [watchdog.events.FileSystemEvent]. *)
Record FileSystemEvent := mkFileSystemEvent {
  event_type : string;
  src_path : string;
  dest_path : string;
  is_directory : bool
}.

(** [RescanEventHandler._is_media_file] *)
Definition is_media_file (self : RescanEventHandler) (file_path : string) : bool :=
  PyStr.str_in (PyStr.lower (PyPath.suffix file_path))
    (Settings.media_extensions (settings self)).

(** [RescanEventHandler._should_process_event] *)
Definition should_process_event (self : RescanEventHandler)
    (event : FileSystemEvent) : bool :=
  if negb (is_media_file self (src_path event)) then false
  else if is_directory event then false
  else if negb (PyStr.str_in (event_type event) ["created"; "modified"; "moved"])
  then false
  else true.

(** [RescanEventHandler.on_any_event] at the time [current_time];
    [the_plex] is [self.plex]. *)
Definition on_any_event (the_plex : Plex.Plex) (current_time : Z)
    (event : FileSystemEvent) (self : RescanEventHandler) : RescanEventHandler :=
  if negb (should_process_event self event) then self
  else
    match Plex.find_library_by_path (Plex.library_sections the_plex)
            (src_path event) with
    | Some library =>
        let parent_dir := PyPath.parent (src_path event) in
        mkRescanEventHandler (settings self)
          (add_scan_request current_time (Plex.key library) parent_dir
             (batch_manager self))
    | None => self
    end.

(** An event as the observer hands it to the handler: the time of the
    call of [on_any_event] and, as for a [Call], which of the call and a
    turn of the worker due at the same tick comes first. *)
Record Notice := mkNotice {
  notice_time : Z;
  notice_event : FileSystemEvent;
  notice_after_worker : bool
}.

Definition notice_limit (n : Notice) : Z :=
  if notice_after_worker n then notice_time n else notice_time n - 1.

Section Watching.

Variable second : Z.


(** The worker of the handler's manager runs until the time [limit]. *)
Definition handler_advance (limit : Z) (self : RescanEventHandler)
  : RescanEventHandler :=
  mkRescanEventHandler (settings self) (advance second limit (batch_manager self)).

(** The events of the observer, in order, with the turns of the worker
    that are due in between. *)
Fixpoint watch (the_plex : Plex.Plex) (notices : list Notice)
    (self : RescanEventHandler) : RescanEventHandler :=
  match notices with
  | [] => self
  | n :: rest =>
      watch the_plex rest
        (on_any_event the_plex (notice_time n) (notice_event n)
           (handler_advance (notice_limit n) self))
  end.

End Watching.

(** [main], up to the point where the observer is started. *)

(** [DatabaseManager("config/rescan.db")] *)
Definition db_file : string := "config/rescan.db".

(** What has become of [main] when the watching begins: it has returned
    for want of a database or of a server, an exception has gone through
    it, or it has made the requests of the reconciliation. *)
Inductive startup :=
  | NoDatabase
  | NoServer
  | Uncaught (e : Plex.exn)
  | Watching (requests : list Plex.Request) (disk : gmap string Database.node).

(** [for library, key in plex.library_ids.items():
    plex.cache_library_files(key)] *)
Fixpoint cache_libraries (server : option (list Plex.ServerSection))
    (db : Database.DatabaseManager) (keys : list Z)
    (disk : gmap string Database.node)
  : Plex.result (gmap string Database.node) :=
  match keys with
  | [] => Plex.Return disk
  | library_key :: rest =>
      match Plex.cache_library_files server db library_key disk with
      | Plex.Return disk' => cache_libraries server db rest disk'
      | Plex.Raise e => Plex.Raise e
      end
  end.

Section Startup.

(** The world outside the program, as for [Plex.full_scan]. *)
Variable path_exists : string -> bool.
Variable os_walk : string -> list (string * list string * list string).
Variable path_str : string -> string -> string.
Variable select_raises : Z -> string -> bool.
Variable update_outcome : Z -> string -> option Plex.exn.

(** [main] with the settings it has loaded, the server that
    [Plex.connect] finds and the file system. *)
Definition main (settings : Settings.Settings)
    (server : option (list Plex.ServerSection))
    (disk : gmap string Database.node) : startup :=
  let (db, disk) := Database.connect db_file disk in
  if negb (Database.connection db) then NoDatabase
  else
    let plex := Plex.init settings (Database.rows_of db disk) server in
    if negb (Plex.server plex) then NoServer
    else
      match cache_libraries server db
              (map snd (Plex.get_library_ids (Plex.library_sections plex)))
              disk with
      | Plex.Raise e => Uncaught e
      | Plex.Return disk =>
          let plex := Plex.init settings (Database.rows_of db disk) server in
          let out :=
            Plex.full_scan path_exists os_walk path_str select_raises
              update_outcome plex [] in
          Watching out.1 disk
      end.

End Startup.

End Main.

(** ** [src/main.py]: the threads of the batch manager

    [Main] takes each call of [add_scan_request] as one step. Here the
    statements of [add_scan_request] are steps of their own, so that calls
    made by several threads can overlap; a turn of a worker stays one step. *)

Module Threads.

(** A [threading.Thread] object: created and not started, alive, or ended. *)
Inductive thread :=
  | Created
  | Running
  | Finished.

#[export] Instance thread_eq_dec : EqDecision thread.
Proof. solve_decision. Defined.

(** Where a calling thread stands in [add_scan_request]. *)
Inductive pc :=
  | Outside                                   (* not in the method *)
  | AtInsert (library_key : Z) (parent_dir : string)
                                              (* before [with self.lock: ...] *)
  | AtCheck                                   (* before the [if] *)
  | AtCreate                                  (* before [self.timer_thread = Thread(...)] *)
  | AtStart                                   (* before [self.timer_thread.start()] *)
  | Failed.                                   (* [start()] raised [RuntimeError] *)

(** [threads] holds every [Thread] object made so far; [timer_thread] is
    the index of the one [self.timer_thread] refers to. [sent] are the
    requests of the workers, each with the index of its worker. *)
Record state := mkState {
  delay_seconds : Z;
  pending_scans : gmap string Main.PendingScan;
  threads : list thread;
  timer_thread : option nat;
  stop_event : bool;
  callers : list pc;
  sent : list (nat * Main.ScanRequest)
}.

(** The manager after [__init__], with [n] threads that may call it. *)
Definition init (delay_seconds : Z) (n : nat) : state :=
  mkState delay_seconds ∅ [] None false (replicate n Outside) [].

Definition set_pc (i : nat) (p : pc) (st : state) : state :=
  mkState (delay_seconds st) (pending_scans st) (threads st) (timer_thread st)
    (stop_event st) (<[i := p]> (callers st)) (sent st).

(** [self.timer_thread is None or not self.timer_thread.is_alive()] *)
Definition no_live_timer (st : state) : bool :=
  match timer_thread st with
  | None => true
  | Some t => negb (bool_decide (threads st !! t = Some Running))
  end.

Inductive label :=
  | Enter (caller : nat) (library_key : Z) (parent_dir : string)
      (* the caller enters [add_scan_request] *)
  | Step (caller : nat) (now : Z)
      (* the caller runs its next statement *)
  | Pass (worker : nat) (now : Z).
      (* the worker runs one turn of its loop *)

Section Steps.

Variable second : Z.

Definition ready (st : state) (now : Z) (entry : string * Main.PendingScan)
  : Prop :=
  delay_seconds st * second <= now - Main.timestamp entry.2.

#[export] Instance ready_dec st now entry : Decision (ready st now entry).
Proof. unfold ready. apply _. Defined.

(** The next statement of caller [i], which stands at [p]. *)
Definition caller_step (i : nat) (now : Z) (p : pc) (st : state)
  : option state :=
  match p with
  | Outside | Failed => None
  | AtInsert library_key parent_dir =>
      Some (set_pc i AtCheck
              (mkState (delay_seconds st)
                 (<[Main.scan_key library_key parent_dir :=
                      Main.mkPendingScan library_key parent_dir now]>
                    (pending_scans st))
                 (threads st) (timer_thread st) (stop_event st)
                 (callers st) (sent st)))
  | AtCheck =>
      Some (set_pc i (if no_live_timer st then AtCreate else Outside) st)
  | AtCreate =>
      Some (set_pc i AtStart
              (mkState (delay_seconds st) (pending_scans st)
                 (threads st ++ [Created]) (Some (length (threads st)))
                 (stop_event st) (callers st) (sent st)))
  | AtStart =>
      match timer_thread st with
      | Some t =>
          if bool_decide (threads st !! t = Some Created) then
            Some (set_pc i Outside
                    (mkState (delay_seconds st) (pending_scans st)
                       (<[t := Running]> (threads st)) (timer_thread st)
                       (stop_event st) (callers st) (sent st)))
          else Some (set_pc i Failed st)
      | None => Some (set_pc i Failed st)
      end
  end.

(** One turn of the loop of [_batch_processor], run by worker [w]. *)
Definition worker_pass (w : nat) (now : Z) (st : state) : state :=
  if stop_event st then
    mkState (delay_seconds st) (pending_scans st)
      (<[w := Finished]> (threads st)) (timer_thread st) (stop_event st)
      (callers st) (sent st)
  else
    let ready_scans :=
      (map_to_list (filter (ready st now) (pending_scans st))).*2 in
    let remaining :=
      filter (fun entry => ~ ready st now entry) (pending_scans st) in
    let sent' :=
      sent st ++ map (fun scan => (w, Main.request_of Main.Worker now scan))
                   ready_scans in
    mkState (delay_seconds st) remaining
      (if decide (remaining = ∅) then <[w := Finished]> (threads st)
       else threads st)
      (timer_thread st) (stop_event st) (callers st) sent'.

(** One step; [None] when the step is not possible in [st]. *)
Definition step (l : label) (st : state) : option state :=
  match l with
  | Enter i library_key parent_dir =>
      match callers st !! i with
      | Some Outside => Some (set_pc i (AtInsert library_key parent_dir) st)
      | _ => None
      end
  | Step i now =>
      match callers st !! i with
      | Some p => caller_step i now p st
      | None => None
      end
  | Pass w now =>
      match threads st !! w with
      | Some Running => Some (worker_pass w now st)
      | _ => None
      end
  end.

(** A schedule, step by step. *)
Fixpoint exec (schedule : list label) (st : state) : option state :=
  match schedule with
  | [] => Some st
  | l :: rest =>
      match step l st with
      | Some st' => exec rest st'
      | None => None
      end
  end.

End Steps.

(** No two workers are alive. *)
Definition at_most_one_worker (st : state) : Prop :=
  forall t1 t2,
    threads st !! t1 = Some Running -> threads st !! t2 = Some Running ->
    t1 = t2.

End Threads.

(** * Properties *)

(** ** Some file names *)

Example suffix_of_a_film : PyStr.suffix "movie.mkv" = ".mkv"%string.
Proof. reflexivity. Qed.

Example suffix_is_the_last_one : PyStr.suffix "backup.tar.GZ" = ".GZ"%string.
Proof. reflexivity. Qed.

Example suffix_of_a_hidden_file : PyStr.suffix ".bashrc" = ""%string.
Proof. reflexivity. Qed.

Example suffix_after_a_final_dot : PyStr.suffix "notes." = ""%string.
Proof. reflexivity. Qed.

Example lower_of_a_suffix : PyStr.lower ".MkV" = ".mkv"%string.
Proof. reflexivity. Qed.

(** ** Strings *)

(** [p] is an initial segment of [s]. *)
Definition is_prefix (p s : string) : Prop := exists rest, s = (p ++ rest)%string.

Lemma append_String c (p r : string) :
  (String c p ++ r)%string = String c (p ++ r)%string.
Proof. reflexivity. Qed.

Lemma startswith_spec s p : PyStr.startswith s p = true <-> is_prefix p s.
Proof.
  unfold PyStr.startswith, is_prefix. revert s.
  induction p as [|c p IH]; intros s.
  - split; [intros _; exists s; reflexivity | intros _; now destruct s].
  - destruct s as [|d s]; simpl.
    + split; [discriminate | intros [r Hr]; discriminate].
    + destruct (Ascii.ascii_dec c d) as [->|Hne].
      * rewrite IH. split; intros [r Hr]; exists r;
          rewrite ?append_String in *; congruence.
      * split; [discriminate|].
        intros [r Hr]. rewrite append_String in Hr. congruence.
Qed.

(** ** Library resolution *)

Section Resolution.
Import Plex.

Definition section_matches (file_path : string) (s : LibraryInfo) : Prop :=
  exists loc, In loc (locations s) /\ is_prefix loc file_path.

Lemma location_matches_spec file_path locs :
  location_matches file_path locs = true <->
  exists loc, In loc locs /\ is_prefix loc file_path.
Proof.
  induction locs as [|l locs IH]; simpl.
  - split; [discriminate | intros (loc & [] & _)].
  - destruct (PyStr.startswith file_path l) eqn:E.
    + split; [intros _ | reflexivity].
      exists l. split; [now left | now apply startswith_spec].
    + rewrite IH. split.
      * intros (loc & Hin & Hp). exists loc. split; [now right | assumption].
      * intros (loc & [<-|Hin] & Hp).
        -- apply startswith_spec in Hp. congruence.
        -- exists loc. split; assumption.
Qed.

(** The library that owns the longest location which is a prefix of the
    path, among all locations of all sections. *)
Definition owns_longest_prefix
    (sections : list LibraryInfo) (file_path : string) (s : LibraryInfo) : Prop :=
  exists loc, In loc (locations s) /\ is_prefix loc file_path /\
    forall s' loc', In s' sections -> In loc' (locations s') ->
      is_prefix loc' file_path ->
      (String.length loc' <= String.length loc)%nat.

Definition movies_root : LibraryInfo :=
  mkLibraryInfo "All media" 1 ["/media"%string] "movie" "Unknown" "Unknown".
Definition movies_sub : LibraryInfo :=
  mkLibraryInfo "Movies" 2 ["/media/movies"%string] "movie" "Unknown" "Unknown".

(** C3, as claimed, fails: with the sections "All media" (at /media) and
    "Movies" (at /media/movies) in this order, the path
    /media/movies/x.mkv resolves to "All media", although the longest
    location that is a prefix of the path belongs to "Movies". *)
Lemma find_library_by_path_not_longest :
  find_library_by_path [movies_root; movies_sub] "/media/movies/x.mkv"
    = Some movies_root /\
  section_matches "/media/movies/x.mkv" movies_sub /\
  ~ owns_longest_prefix [movies_root; movies_sub] "/media/movies/x.mkv" movies_root.
Proof.
  split; [reflexivity|]. split.
  - exists "/media/movies"%string. split; [now left|].
    exists "/x.mkv"%string. reflexivity.
  - intros (loc & Hin & _ & Hmax).
    destruct Hin as [<-|[]].
    specialize (Hmax movies_sub "/media/movies"%string).
    simpl in Hmax.
    assert (H : (13 <= 6)%nat); [|lia].
    apply Hmax; [now right; left | now left |].
    exists "/x.mkv"%string. reflexivity.
Qed.

(** C3, amended: [find_library_by_path] returns the first section, in
    enumeration order, one of whose locations is a plain string prefix of
    the path; the lengths of the locations play no part. It returns
    [None] exactly when no location of any section is a prefix. *)
Theorem find_library_by_path_first_match sections file_path :
  (forall s, find_library_by_path sections file_path = Some s <->
     exists before after,
       sections = before ++ s :: after /\
       section_matches file_path s /\
       forall s', In s' before -> ~ section_matches file_path s') /\
  (find_library_by_path sections file_path = None <->
     forall s', In s' sections -> ~ section_matches file_path s').
Proof.
  induction sections as [|x xs [IHsome IHnone]]; simpl.
  - split.
    + intros s. split; [discriminate|].
      intros (b & a & H & _). destruct b; discriminate.
    + split; [intros _ s' [] | reflexivity].
  - destruct (location_matches file_path (locations x)) eqn:E.
    + assert (Hx : section_matches file_path x)
        by (now apply location_matches_spec).
      split.
      * intros s. split.
        -- intros [= <-]. exists [], xs. repeat split; [assumption|].
           intros s' [].
        -- intros (b & a & Heq & Hs & Hb).
           destruct b as [|y b]; simpl in Heq.
           ++ congruence.
           ++ injection Heq as -> _. exfalso. apply (Hb y); [now left | assumption].
      * split; [discriminate|]. intros H. exfalso. apply (H x); [now left|assumption].
    + assert (Hx : ~ section_matches file_path x).
      { intros H. apply location_matches_spec in H. congruence. }
      split.
      * intros s. rewrite IHsome. split.
        -- intros (b & a & -> & Hs & Hb). exists (x :: b), a.
           repeat split; [assumption|].
           intros s' [<-|Hin]; [assumption | now apply Hb].
        -- intros (b & a & Heq & Hs & Hb).
           destruct b as [|y b]; simpl in Heq.
           ++ injection Heq as -> _. contradiction.
           ++ injection Heq as -> ->. exists b, a. repeat split; [assumption|].
              intros s' Hin. apply Hb. now right.
      * rewrite IHnone. split.
        -- intros H s' [<-|Hin]; [assumption | now apply H].
        -- intros H s' Hin. apply H. now right.
Qed.

End Resolution.

(** ** The store of known files *)

Section KnownFiles.
Import Database.

Definition paths (rows : list Row) : list string := map file_path rows.

Lemma insert_or_ignore_cases rows k p :
  (In p (paths rows) /\ insert_or_ignore rows (k, p) = rows) \/
  (~ In p (paths rows) /\ insert_or_ignore rows (k, p) = rows ++ [mkRow k p]).
Proof.
  unfold insert_or_ignore. simpl.
  destruct (existsb _ rows) eqn:E.
  - left. split; [|reflexivity].
    apply existsb_exists in E as (r & Hin & Heq).
    apply String.eqb_eq in Heq. subst p. now apply in_map.
  - right. split; [|reflexivity].
    intros Hin. apply in_map_iff in Hin as (r & Heq & Hin).
    assert (existsb (fun r => String.eqb (file_path r) p) rows = true); [|congruence].
    apply existsb_exists. exists r. split; [assumption|].
    now apply String.eqb_eq.
Qed.

Lemma insert_or_ignore_NoDup rows kp :
  NoDup (paths rows) -> NoDup (paths (insert_or_ignore rows kp)).
Proof.
  destruct kp as [k p]. intros Hnd.
  destruct (insert_or_ignore_cases rows k p) as [[_ ->]|[Hnin ->]]; [assumption|].
  unfold paths in *. rewrite map_app. simpl.
  apply NoDup_app. split; [assumption|]. split.
  - intros x Hx Hx'. apply list_elem_of_In in Hx, Hx'.
    destruct Hx' as [<-|[]]. contradiction.
  - apply NoDup_singleton.
Qed.

Lemma executemany_NoDup data rows :
  NoDup (paths rows) -> NoDup (paths (executemany data rows)).
Proof.
  unfold executemany. revert rows.
  induction data as [|kp data IH]; intros rows Hnd; simpl; [assumption|].
  apply IH. now apply insert_or_ignore_NoDup.
Qed.

(** The pair of [r] is, in [data], the first pair with its path. *)
Definition first_for_path (data : list (Z * string)) (r : Row) : Prop :=
  exists before after,
    data = before ++ (library_key r, file_path r) :: after /\
    ~ In (file_path r) (map snd before).

Lemma executemany_appends data rows :
  exists added,
    executemany data rows = rows ++ added /\
    forall r, In r added <->
      first_for_path data r /\ ~ In (file_path r) (paths rows).
Proof.
  unfold executemany. revert rows.
  induction data as [|[k p] data IH]; intros rows; simpl.
  - exists []. split; [now rewrite app_nil_r|].
    intros r. split; [intros []|].
    intros [(b & a & H & _) _]. destruct b; discriminate.
  - destruct (insert_or_ignore_cases rows k p) as [[Hin ->]|[Hnin ->]].
    + destruct (IH rows) as (added & -> & Hadded).
      exists added. split; [reflexivity|].
      intros r. rewrite Hadded. split.
      * intros [(b & a & -> & Hb) Hr]. split; [|assumption].
        exists ((k, p) :: b), a. split; [reflexivity|].
        simpl. intros [->|H]; contradiction.
      * intros [(b & a & Heq & Hb) Hr]. split; [|assumption].
        destruct b as [|x b]; simpl in Heq.
        -- injection Heq as Hk Hp _. rewrite <- Hp in Hr. contradiction.
        -- injection Heq as Hx Hd. subst x data.
           exists b, a. split; [reflexivity|].
           intros H. apply Hb. now right.
    + destruct (IH (rows ++ [mkRow k p])) as (added & -> & Hadded).
      exists (mkRow k p :: added). split; [now rewrite <- app_assoc|].
      intros r. simpl. rewrite Hadded. unfold paths. rewrite map_app, in_app_iff.
      simpl. split.
      * intros [<-|[(b & a & -> & Hb) Hr]].
        -- split; [|assumption]. exists [], data. split; [reflexivity|]. intros [].
        -- split; [|tauto]. exists ((k, p) :: b), a. split; [reflexivity|].
           simpl. intros [->|H]; tauto.
      * intros [(b & a & Heq & Hb) Hr].
        destruct b as [|x b]; simpl in Heq.
        -- left. destruct r. simpl in *. congruence.
        -- right. injection Heq as Hx Hd. subst x data. simpl in Hb. split.
           ++ exists b, a. split; [reflexivity|]. tauto.
           ++ intros [H|[H|[]]]; [contradiction|]. apply Hb. now left.
Qed.

Lemma rows_of_connect path disk :
  rows_of (connect path disk).1 (connect path disk).2 = [].
Proof.
  unfold connect, os_path_exists, os_remove, sqlite3_connect, rows_of.
  destruct (disk !! path) as [n|] eqn:E.
  - rewrite bool_decide_eq_true_2 by eauto.
    destruct n as [|tbl]; simpl.
    + now rewrite E.
    + rewrite lookup_delete_eq. simpl.
      rewrite lookup_alter, decide_True by reflexivity.
      now rewrite lookup_insert_eq.
  - rewrite bool_decide_eq_false_2 by (intros [? ?]; congruence).
    rewrite E. simpl.
    rewrite lookup_alter, decide_True by reflexivity.
    now rewrite lookup_insert_eq.
Qed.

Lemma insert_plex_library_files_NoDup data db disk :
  NoDup (paths (rows_of db disk)) ->
  NoDup (paths (rows_of db (insert_plex_library_files data db disk))).
Proof.
  unfold insert_plex_library_files, rows_of.
  destruct (connection db); [|trivial].
  destruct (disk !! db_path db) as [[|[rows|]]|] eqn:E; rewrite ?E; trivial.
  rewrite lookup_insert_eq. apply executemany_NoDup.
Qed.

(** The store after a start of the program on [disk] and then the given
    bulk inserts, as [main] makes them, one per library. *)
Definition store_after (path : string) (disk : gmap string node)
    (batches : list (list (Z * string))) : list Row :=
  let db := (connect path disk).1 in
  rows_of db
    (fold_left (fun d data => insert_plex_library_files data db d) batches
       (connect path disk).2).

Definition movie : string := "/lib/a/movie.mkv".

(** C6, as claimed, fails: after the pair (1, /lib/a/movie.mkv) has been
    stored, no record with the pair (2, /lib/a/movie.mkv) exists, and
    still a bulk insert of that pair adds nothing: the store cannot hold
    the same path under two library keys. *)
Lemma known_files_not_unique_on_pair :
  let before := store_after "config/rescan.db" ∅ [[(1, movie)]] in
  let after := store_after "config/rescan.db" ∅ [[(1, movie)]; [(2, movie)]] in
  before = [mkRow 1 movie] /\
  ~ In (mkRow 2 movie) before /\
  after = before /\
  ~ In (mkRow 2 movie) after.
Proof.
  assert (Hb : store_after "config/rescan.db" ∅ [[(1, movie)]] = [mkRow 1 movie])
    by (vm_compute; reflexivity).
  assert (Ha : store_after "config/rescan.db" ∅ [[(1, movie)]; [(2, movie)]]
               = [mkRow 1 movie]) by (vm_compute; reflexivity).
  cbv zeta. rewrite Hb, Ha.
  repeat split; try (intros [H|[]]; discriminate).
Qed.

(** C6, amended: known-file records are unique on [file_path] alone.
    The store never holds two records with the same path, whatever their
    library keys; a bulk insert leaves the existing records as they are
    and appends, for each pair of the batch, a record exactly when no
    record with that path is in the store and no earlier pair of the
    batch has that path. *)
Theorem known_files_unique_on_path :
  (forall path disk batches, NoDup (paths (store_after path disk batches))) /\
  (forall data rows, exists added,
      executemany data rows = rows ++ added /\
      forall r, In r added <->
        first_for_path data r /\ ~ In (file_path r) (paths rows)).
Proof.
  split; [|apply executemany_appends].
  intros path disk batches. unfold store_after.
  pose proof (rows_of_connect path disk) as H0.
  set (db := (connect path disk).1) in *.
  assert (H : NoDup (paths (rows_of db (connect path disk).2)))
    by (rewrite H0; constructor).
  revert H. generalize (connect path disk).2 as d. clear H0.
  induction batches as [|data batches IH]; intros d H; simpl; [assumption|].
  apply IH. now apply insert_plex_library_files_NoDup.
Qed.




End KnownFiles.

(** ** The start-up reconciliation *)

Section Reconcile.
Import Plex.

Variable path_exists : string -> bool.
Variable os_walk : string -> list (string * list string * list string).
Variable path_str : string -> string -> string.
Variable select_raises : Z -> string -> bool.
Variable update_outcome : Z -> string -> option exn.

Abbreviation scan_file := (Plex.scan_file path_str select_raises update_outcome).
Abbreviation full_scan_walk :=
  (Plex.full_scan_walk path_exists os_walk path_str select_raises update_outcome).
Abbreviation full_scan :=
  (Plex.full_scan path_exists os_walk path_str select_raises update_outcome).

(** The files the walk meets, as (root, file), in the order of the walk. *)
Definition enumerated (self : Plex) : list (string * string) :=
  flat_map
    (fun library_path =>
       if path_exists library_path
       then flat_map (fun '(root, _, files) => map (pair root) files)
              (os_walk library_path)
       else [])
    (local_library_paths self).

Definition file_path_of (f : string * string) : string := path_str f.1 f.2.

(** A media file by its extension, and not hidden. *)
Definition is_candidate (self : Plex) (file : string) : bool :=
  PyStr.str_in (PyStr.lower (PyStr.suffix file)) (media_extensions self)
  && negb (PyStr.startswith file ".").

(** The request a file calls for, if any. *)
Definition wanted (self : Plex) (f : string * string) : option Request :=
  if is_candidate self f.2 then
    match find_library_by_path (library_sections self) (file_path_of f) with
    | Some library =>
        if Database.select_cached (db_rows self) (key library) (file_path_of f)
        then None
        else Some (key library, file_path_of f)
    | None => None
    end
  else None.

(** Handling the file raises an exception that [send_scan_request] does
    not catch: the look-up raises, or the request raises something else
    than [PlexApiException]. *)
Definition raises (self : Plex) (f : string * string) : bool :=
  if is_candidate self f.2 then
    match find_library_by_path (library_sections self) (file_path_of f) with
    | Some library =>
        select_raises (key library) (file_path_of f)
        || (negb (Database.select_cached (db_rows self) (key library)
                    (file_path_of f))
            && server self
            && bool_decide (update_outcome (key library) (file_path_of f)
                            = Some OtherException))
    | None => false
    end
  else false.

(** The request made for a file before its handling raised. *)
Definition attempted (self : Plex) (f : string * string) : list Request :=
  match find_library_by_path (library_sections self) (file_path_of f) with
  | Some library =>
      if select_raises (key library) (file_path_of f) then []
      else [(key library, file_path_of f)]
  | None => []
  end.

Lemma scan_file_returns self f log :
  raises self f = false ->
  scan_file self f.1 f.2 log = (log ++ option_list (wanted self f), Return tt).
Proof.
  unfold raises, wanted, Plex.scan_file, is_candidate, file_path_of.
  destruct f as [root file]. simpl.
  destruct (_ && _) eqn:Hc; [|intros _; simpl; now rewrite app_nil_r].
  destruct (find_library_by_path _ _) as [lib|];
    [|intros _; simpl; now rewrite app_nil_r].
  destruct (select_raises _ _); [discriminate|]. simpl.
  unfold mbind, M_bind, bind, ret. simpl.
  destruct (Database.select_cached _ _ _); simpl;
    [intros _; now rewrite app_nil_r|].
  unfold send_scan_request, catch_plex, ret, raise.
  destruct (server self); simpl; [|reflexivity].
  destruct (update_outcome _ _) as [[|]|]; simpl; try reflexivity.
  discriminate.
Qed.

Lemma scan_file_raises self f log :
  raises self f = true ->
  scan_file self f.1 f.2 log = (log ++ attempted self f, Raise OtherException).
Proof.
  unfold raises, attempted, Plex.scan_file, is_candidate, file_path_of.
  destruct f as [root file]. simpl.
  destruct (_ && _) eqn:Hc; [|discriminate].
  destruct (find_library_by_path _ _) as [lib|]; [|discriminate].
  unfold mbind, M_bind, bind, ret, raise.
  destruct (select_raises _ _); simpl; [intros _; now rewrite app_nil_r|].
  destruct (Database.select_cached _ _ _); simpl; [discriminate|].
  unfold send_scan_request, catch_plex, ret, raise.
  destruct (server self); simpl; [|discriminate].
  intros H. apply bool_decide_eq_true_1 in H. now rewrite H.
Qed.

Lemma for_each_flat_map {X Y} (g : X -> list Y) (body : Y -> M unit) xs log :
  for_each xs (fun x => for_each (g x) body) log
  = for_each (flat_map g xs) body log.
Proof.
  revert log. induction xs as [|x xs IH]; intros log; simpl; [reflexivity|].
  unfold mbind, M_bind, bind.
  generalize (g x) as ys. intros ys. revert log.
  induction ys as [|y ys IHy]; intros log; simpl.
  - apply IH.
  - unfold mbind, M_bind, bind. destruct (body y log) as [log' [[]|e]]; simpl.
    + apply IHy.
    + reflexivity.
Qed.

Lemma for_each_ext {X} (body body' : X -> M unit) xs log :
  (forall x log, body x log = body' x log) ->
  for_each xs body log = for_each xs body' log.
Proof.
  intros H. revert log. induction xs as [|x xs IH]; intros log; simpl;
    [reflexivity|].
  unfold mbind, M_bind, bind. rewrite H.
  destruct (body' x log) as [log' [[]|e]]; [apply IH | reflexivity].
Qed.

Lemma full_scan_walk_enumerated self log :
  full_scan_walk self log
  = for_each (enumerated self) (fun f => scan_file self f.1 f.2) log.
Proof.
  unfold Plex.full_scan_walk, enumerated.
  rewrite <- for_each_flat_map. apply for_each_ext. intros lp log'.
  destruct (path_exists lp); simpl; [|reflexivity].
  rewrite <- for_each_flat_map. apply for_each_ext. intros [[root dirs] files] log''.
  clear. revert log''. induction files as [|file files IH]; intros log; simpl;
    [reflexivity|].
  unfold mbind, M_bind, bind.
  destruct (Plex.scan_file _ _ _ _ _ _ _) as [l [[]|e]]; [apply IH|reflexivity].
Qed.


Lemma for_each_stops {X} (body : X -> M unit) (out : X -> list Request)
    before x after last e log :
  (forall y log, In y before -> body y log = (log ++ out y, Return tt)) ->
  (forall log, body x log = (log ++ last, Raise e)) ->
  for_each (before ++ x :: after) body log
  = (log ++ flat_map out before ++ last, Raise e).
Proof.
  revert log. induction before as [|y ys IH]; intros log Hb Hx; simpl.
  - unfold mbind, M_bind, bind. now rewrite Hx.
  - unfold mbind, M_bind, bind. rewrite Hb by now left.
    rewrite IH by (try assumption; intros; apply Hb; now right).
    now rewrite <- !app_assoc.
Qed.

Lemma flat_map_option_list {X Y} (f : X -> option Y) xs :
  flat_map (fun x => option_list (f x)) xs = omap f xs.
Proof.
  induction xs as [|x xs IH]; simpl; [reflexivity|].
  rewrite IH. now destruct (f x).
Qed.



Lemma select_cached_spec rows k p :
  Database.select_cached rows k p = true <-> In (Database.mkRow k p) rows.
Proof.
  unfold Database.select_cached. rewrite existsb_exists. split.
  - intros ([k' p'] & Hin & Heq). simpl in Heq.
    apply andb_true_iff in Heq as [Hk Hp].
    apply Z.eqb_eq in Hk. apply String.eqb_eq in Hp. now subst.
  - intros Hin. exists (Database.mkRow k p). split; [assumption|]. simpl.
    now rewrite Z.eqb_refl, String.eqb_refl.
Qed.




(** A [PlexApiException] of the request is caught in [send_scan_request]. *)
Lemma send_scan_request_catches_plex self k p log :
  update_outcome k p = Some PlexApiException ->
  send_scan_request update_outcome self k p log = (log ++ [(k, p)], Return tt).
Proof.
  intros H. unfold send_scan_request, catch_plex, raise, ret.
  destruct (server self); simpl; [now rewrite H | reflexivity].
Qed.

(** C5, amended: [full_scan] isolates only what [send_scan_request]
    catches. At the first file whose look-up raises, or whose request
    raises something else than [PlexApiException], the walk ends: the
    files before it have been handled (a [PlexApiException] among their
    requests did not stop the walk), the request of the failing file, if
    it was made, is the last one, no later file is looked up or
    requested, and [full_scan] returns normally. *)
Theorem full_scan_stops_at_first_uncaught_exception self before f after :
  server self = true ->
  enumerated self = before ++ f :: after ->
  (forall g, In g before -> raises self g = false) ->
  raises self f = true ->
  full_scan self []
  = (omap (wanted self) before ++ attempted self f, Return tt).
Proof.
  intros Hs Heq Hb Hf. unfold Plex.full_scan, catch_all. rewrite Hs. simpl.
  rewrite full_scan_walk_enumerated, Heq.
  rewrite (for_each_stops _ (fun g => option_list (wanted self g))
             before f after (attempted self f) OtherException).
  - simpl. now rewrite flat_map_option_list.
  - intros g log Hin. apply scan_file_returns. now apply Hb.
  - intros log. now apply scan_file_raises.
Qed.

End Reconcile.

(** *** A library with one known and one new file *)

Definition lib_a : Plex.LibraryInfo :=
  Plex.mkLibraryInfo "Movies" 1 ["/lib/a"%string] "movie" "Unknown" "Unknown".

Definition walk_a (library_path : string)
  : list (string * list string * list string) :=
  if String.eqb library_path "/lib/a"
  then [("/lib/a", [], ["movie.mkv"; "new.mkv"])]%string
  else [].

Definition join_path (root file : string) : string :=
  (root ++ "/" ++ file)%string.

Definition new_file : string := "/lib/a/new.mkv".

Definition never {A B} (_ : A) (_ : B) : bool := false.
Definition no_exception (_ : Z) (_ : string) : option Plex.exn := None.
Definition always (_ : string) : bool := true.

(** The store knows movie.mkv; the library path is configured once. *)
Definition plex_a : Plex.Plex :=
  Plex.mkPlex [Database.mkRow 1 movie] Settings.default_media_extensions
    ["/lib/a"%string] true [lib_a].


(** The same as [plex_a], with an empty store. *)
Definition plex_a_empty : Plex.Plex :=
  Plex.mkPlex [] Settings.default_media_extensions
    ["/lib/a"%string] true [lib_a].

(** The look-up of movie.mkv raises. *)
Definition movie_lookup_raises (_ : Z) (p : string) : bool := String.eqb p movie.


(** The scenario of the specification: of movie.mkv, known, and new.mkv,
    only new.mkv is requested. *)
Example full_scan_scenario :
  Plex.full_scan always walk_a join_path never no_exception plex_a []
  = ([(1, new_file)], Plex.Return tt).
Proof. vm_compute. reflexivity. Qed.


(** C5, as claimed, fails: when the look-up of movie.mkv raises, new.mkv,
    which comes after it in the walk, qualifies, is not in the store and
    whose own handling raises nothing, is never looked up or requested. *)
Lemma full_scan_lookup_failure_aborts_walk :
  enumerated always walk_a plex_a_empty
    = [("/lib/a", "movie.mkv"); ("/lib/a", "new.mkv")]%string /\
  raises join_path movie_lookup_raises no_exception plex_a_empty
    ("/lib/a", "new.mkv")%string = false /\
  wanted join_path plex_a_empty ("/lib/a", "new.mkv")%string = Some (1, new_file) /\
  Plex.full_scan always walk_a join_path movie_lookup_raises no_exception
    plex_a_empty [] = ([], Plex.Return tt).
Proof. repeat split; vm_compute; reflexivity. Qed.

Lemma full_scan_stops_at_first_uncaught_exception_witness :
  Plex.full_scan always walk_a join_path movie_lookup_raises no_exception
    plex_a_empty []
  = (omap (wanted join_path plex_a_empty) []
     ++ attempted join_path movie_lookup_raises plex_a_empty
          ("/lib/a", "movie.mkv")%string,
     Plex.Return tt).
Proof.
  apply (full_scan_stops_at_first_uncaught_exception always walk_a join_path
           movie_lookup_raises no_exception plex_a_empty
           [] ("/lib/a", "movie.mkv")%string [("/lib/a", "new.mkv")%string]).
  - reflexivity.
  - reflexivity.
  - intros g [].
  - reflexivity.
Defined.

(** ** The window of the coalescer *)

Section Window.
Import Settings Main.

Lemma member_other name n v members :
  String.eqb n name = false ->
  member name ((n, v) :: members) = member name members.
Proof. intros H. simpl. rewrite H. now destruct (member name members). Qed.

(** A settings file that asks for a window of five seconds. *)
Definition five_seconds : json :=
  JObj [("delay_seconds"%string, JNum 5)].

(** C7, as claimed, fails: the settings file asks for a window of five
    seconds, it is loaded without complaint, and the coalescer that is
    built from the loaded settings waits thirty. *)
Lemma coalescer_ignores_configured_delay :
  member "delay_seconds" [("delay_seconds"%string, JNum 5)] = Some (JNum 5) /\
  load_or_create_settings (Some five_seconds) = Some default_settings /\
  delay_seconds (batch_manager (handler_init default_settings)) = 30 /\
  delay_seconds (batch_manager (handler_init default_settings)) <> 5.
Proof. repeat split. discriminate. Qed.

(** C7, amended: the window of the coalescer is the constant 30 that
    [RescanEventHandler.__init__] passes, whatever the settings: an entry
    of the manager it builds is ready when it is thirty seconds old. A
    [delay_seconds] member of the settings file is dropped when the file
    is loaded, [Settings] having no such field. *)
Theorem coalescer_delay_is_thirty :
  (forall settings,
      delay_seconds (batch_manager (handler_init settings)) = 30) /\
  (forall settings second now entry,
      ready second (batch_manager (handler_init settings)) now entry <->
      30 * second <= now - timestamp entry.2) /\
  (forall d members,
      model_validate_json (JObj (("delay_seconds"%string, d) :: members))
      = model_validate_json (JObj members)).
Proof.
  split; [reflexivity|]. split; [reflexivity|].
  intros d members. unfold model_validate_json, field.
  now rewrite !member_other by reflexivity.
Qed.

End Window.

(** ** The keys of the pending map *)

(** No character of the string is a colon. *)
Fixpoint colon_free (s : string) : Prop :=
  match s with
  | EmptyString => True
  | String c rest => c <> ":"%char /\ colon_free rest
  end.

Lemma pretty_N_go_colon_free x s :
  colon_free s -> colon_free (pretty_N_go x s).
Proof.
  revert s. induction (N.lt_wf_0 x) as [x _ IH]; intros s Hs.
  destruct (decide (x = 0%N)) as [->|Hx]; [now rewrite pretty_N_go_0|].
  rewrite pretty_N_go_step by lia.
  apply IH; [apply N.div_lt; lia|].
  split; [|assumption].
  unfold pretty_N_char. repeat case_match; discriminate.
Qed.

Lemma pretty_N_colon_free (x : N) : colon_free (pretty x).
Proof.
  unfold pretty, pretty_N. case_decide.
  - simpl. split; [discriminate | exact I].
  - now apply pretty_N_go_colon_free.
Qed.

Lemma pretty_Z_colon_free (x : Z) : colon_free (pretty x).
Proof.
  unfold pretty, pretty_Z. destruct x as [|p|p].
  - simpl. split; [discriminate | exact I].
  - apply pretty_N_colon_free.
  - rewrite append_String. split; [discriminate|]. apply pretty_N_colon_free.
Qed.

Lemma split_at_colon a a' b b' :
  colon_free a -> colon_free a' ->
  (a ++ ":" ++ b)%string = (a' ++ ":" ++ b')%string -> a = a' /\ b = b'.
Proof.
  revert a'. induction a as [|c a IH]; intros [|c' a'] Ha Ha' H.
  - change (String ":" b = String ":" b') in H. now injection H.
  - change (String ":" b = String c' (a' ++ ":" ++ b')%string) in H.
    injection H as <- _. now destruct Ha' as [[] _].
  - change (String c (a ++ ":" ++ b)%string = String ":" b') in H.
    injection H as -> _. now destruct Ha as [[] _].
  - rewrite !append_String in H. injection H as -> H.
    destruct Ha as [_ Ha], Ha' as [_ Ha'].
    destruct (IH a' Ha Ha' H) as [-> ->]. now split.
Qed.

(** The key of the pending map determines the library and the directory. *)
Lemma scan_key_inj k d k' d' :
  Main.scan_key k d = Main.scan_key k' d' -> k = k' /\ d = d'.
Proof.
  unfold Main.scan_key. intros H.
  apply split_at_colon in H as [H ->]; try apply pretty_Z_colon_free.
  split; [|reflexivity]. now apply (inj pretty).
Qed.

(** ** The batch manager once the stop flag is set *)

Section Stopped.
Import Main.
Variable second : Z.














End Stopped.

(** ** The rolling window of the batch manager *)

Section Debounce.
Import Main.

Variable second : Z.
Hypothesis second_pos : 0 < second.
Variable delay : Z.
Hypothesis delay_nonneg : 0 <= delay.

(** The library and the directory whose requests are followed. *)
Variable lk : Z.
Variable pd : string.

Definition for_key (c : Call) : Prop := call_key c = lk /\ call_dir c = pd.

#[local] Instance for_key_dec c : Decision (for_key c).
Proof. unfold for_key. apply _. Defined.

Definition is_request (r : ScanRequest) : Prop :=
  sent_key r = lk /\ sent_dir r = pd.

#[local] Instance is_request_dec r : Decision (is_request r).
Proof. unfold is_request. apply _. Defined.

(** The requests made for the library and the directory, oldest first. *)
Definition requests_for (log : list ScanRequest) : list ScanRequest :=
  filter is_request log.

(** Every entry of the map sits under the key of its own fields. *)
Definition consistent (m : gmap string PendingScan) : Prop :=
  forall k scan, m !! k = Some scan ->
    scan_key (library_key scan) (parent_dir scan) = k.

Lemma requests_for_app l1 l2 :
  requests_for (l1 ++ l2) = requests_for l1 ++ requests_for l2.
Proof. apply filter_app. Qed.

(** Among the requests for the values of a map, those for the followed
    key come from the entry under that key alone. *)
Lemma requests_for_values who t (m : gmap string PendingScan) :
  consistent m ->
  requests_for (map (request_of who t) (map_to_list m).*2)
  = match m !! scan_key lk pd with
    | Some scan => [request_of who t scan]
    | None => []
    end.
Proof.
  induction m as [|i x m Hi Hfirst IH] using map_first_key_ind; intros Hc.
  - now rewrite map_to_list_empty, lookup_empty.
  - rewrite map_to_list_insert_first_key by assumption.
    rewrite fmap_cons, map_cons. cbn [snd].
    assert (Hc' : consistent m).
    { intros k s Hk. apply Hc. rewrite lookup_insert_ne; [assumption|].
      intros ->. congruence. }
    specialize (IH Hc').
    assert (Hx : scan_key (library_key x) (parent_dir x) = i)
      by (apply Hc, lookup_insert_eq).
    unfold requests_for in *. rewrite filter_cons.
    destruct (decide (i = scan_key lk pd)) as [->|Hne].
    + rewrite lookup_insert_eq. rewrite Hi in IH.
      apply scan_key_inj in Hx as [Hk Hd].
      rewrite decide_True by (split; assumption).
      now rewrite IH.
    + rewrite lookup_insert_ne by assumption.
      rewrite decide_False; [assumption|].
      intros [Hk Hd]. simpl in Hk, Hd. apply Hne. now rewrite <- Hx, Hk, Hd.
Qed.

(** *** The invariant *)






(** *** One turn of the worker *)

Definition ready_part (w : Z) (self : BatchScanManager) : gmap string PendingScan :=
  filter (ready second self w) (pending_scans self).

Definition remaining_part (w : Z) (self : BatchScanManager)
  : gmap string PendingScan :=
  filter (fun entry => ~ ready second self w entry) (pending_scans self).

Lemma batch_pass_running w self :
  stop_event self = false ->
  plex (batch_pass second w self)
    = plex self ++ map (request_of Worker w) (map_to_list (ready_part w self)).*2 /\
  delay_seconds (batch_pass second w self) = delay_seconds self /\
  pending_scans (batch_pass second w self) = remaining_part w self /\
  timer_thread (batch_pass second w self)
    = (if decide (remaining_part w self = ∅) then None else Some (w + second)) /\
  stop_event (batch_pass second w self) = false.
Proof.
  intros H. unfold batch_pass, ready_part, remaining_part. rewrite H.
  destruct (decide (filter _ (pending_scans self) = ∅)); now repeat split.
Qed.



Lemma consistent_filter (P : string * PendingScan -> Prop)
    `{!forall x, Decision (P x)} m :
  consistent m -> consistent (filter P m).
Proof.
  intros Hc k scan Hf. apply map_lookup_filter_Some in Hf as [Hf _]. now apply Hc.
Qed.

Lemma parts_lookup_none w self k :
  pending_scans self !! k = None ->
  ready_part w self !! k = None /\ remaining_part w self !! k = None.
Proof.
  intros H. unfold ready_part, remaining_part.
  split; apply map_lookup_filter_None_2; now left.
Qed.

Lemma parts_lookup_ready w self k scan :
  pending_scans self !! k = Some scan ->
  delay_seconds self * second <= w - timestamp scan ->
  ready_part w self !! k = Some scan /\ remaining_part w self !! k = None.
Proof.
  intros H Hr. unfold ready_part, remaining_part. split.
  - apply map_lookup_filter_Some_2; [assumption|]. exact Hr.
  - apply map_lookup_filter_None_2. right. intros scan' E.
    rewrite H in E. injection E as <-. intros Hn. apply Hn. exact Hr.
Qed.

Lemma parts_lookup_waiting w self k scan :
  pending_scans self !! k = Some scan ->
  ~ delay_seconds self * second <= w - timestamp scan ->
  ready_part w self !! k = None /\ remaining_part w self !! k = Some scan.
Proof.
  intros H Hr. unfold ready_part, remaining_part. split.
  - apply map_lookup_filter_None_2. right. intros scan' E.
    rewrite H in E. injection E as <-. exact Hr.
  - apply map_lookup_filter_Some_2; [assumption|]. exact Hr.
Qed.


(** *** The worker up to a time *)







(** *** A call of the watcher *)





(** *** A run of calls *)



Fixpoint end_time (now : Z) (calls : list Call) : Z :=
  match calls with
  | [] => now
  | c :: rest => end_time (call_time c) rest
  end.

(** The calls come in the order of their times, none before [now]. *)
Fixpoint times_ok (now : Z) (calls : list Call) : Prop :=
  match calls with
  | [] => True
  | c :: rest => now <= call_time c /\ times_ok (call_time c) rest
  end.




(** *** The calls as lists of times *)



Lemma times_ok_sorted now calls :
  Sorted Z.le (now :: map call_time calls) -> times_ok now calls.
Proof.
  revert now. induction calls as [|c calls IH]; intros now H; simpl; [exact I|].
  apply Sorted_inv in H as [H Hhd]. apply HdRel_inv in Hhd.
  split; [assumption | now apply IH].
Qed.



Lemma end_time_le now calls horizon :
  now <= horizon -> Forall (fun c => call_time c <= horizon) calls ->
  end_time now calls <= horizon.
Proof.
  revert now. induction calls as [|c calls IH]; intros now Hn H; simpl;
    [assumption|].
  apply Forall_cons in H as [Hc H]. now apply IH.
Qed.


End Debounce.

(** *** The scenario of the specification

    A window of two seconds, ten ticks to the second; calls for library 1
    and /lib/a at 0 s, 0.5 s and 1 s (the last one ahead of the turn of the
    worker that is due at the same tick), and a call for another key at
    1.2 s. *)

Definition burst : list Main.Call :=
  [Main.mkCall 0 1 "/lib/a" true; Main.mkCall 5 1 "/lib/a" true;
   Main.mkCall 10 1 "/lib/a" false; Main.mkCall 12 2 "/lib/b" true].


(** The one request for /lib/a is made at 3 s, the one for /lib/b at 4 s. *)
Example burst_requests :
  Main.plex (Main.advance 10 100 (Main.run 10 burst (Main.init 2)))
  = [Main.mkScanRequest Main.Worker 30 1 "/lib/a";
     Main.mkScanRequest Main.Worker 40 2 "/lib/b"].
Proof. vm_compute. reflexivity. Qed.

(** Watched only up to 2.9 s, the worker has made no request. *)
Example burst_no_request_early :
  Main.plex (Main.advance 10 29 (Main.run 10 burst (Main.init 2))) = [].
Proof. vm_compute. reflexivity. Qed.

(** After a shutdown at 1.2 s, a call at 2 s. *)
Definition late_call : list Main.Call := [Main.mkCall 20 1 "/lib/a" true].


(** The entry of the late call is in the map an hour later, not requested. *)
Example late_call_is_stuck :
  let stopped := (Main.shutdown 10 12 (Main.run 10 burst (Main.init 2))).1 in
  let later := Main.advance 10 36000 (Main.run 10 late_call stopped) in
  Main.pending_scans later !! "1:/lib/a"%string
    = Some (Main.mkPendingScan 1 "/lib/a" 20) /\
  Main.timer_thread later = None /\
  Main.plex later = Main.plex stopped.
Proof. vm_compute. repeat split; reflexivity. Qed.

(** ** The workers of the batch manager *)

Section Workers.
Import Threads.
Variable second : Z.

Definition no_thread (x : thread) (st : state) : Prop :=
  forall t, threads st !! t <> Some x.

(** With one calling thread at [p]: a worker that is alive is the one
    [self.timer_thread] refers to, and a thread that is created and not
    started exists only between the last two statements of the call. *)
Definition one_caller_inv (st : state) : Prop :=
  exists p, callers st = [p] /\
    match p with
    | AtCreate => no_thread Running st /\ no_thread Created st
    | AtStart =>
        no_thread Running st /\
        exists t, timer_thread st = Some t /\
                  threads st !! t = Some Created /\
                  forall t', threads st !! t' = Some Created -> t' = t
    | _ =>
        (forall t, threads st !! t = Some Running -> timer_thread st = Some t) /\
        no_thread Created st
    end.

Lemma one_caller_inv_init delay : one_caller_inv (init delay 1).
Proof.
  exists Outside. split; [reflexivity|].
  split; intros t H; simpl in H; now rewrite lookup_nil in H.
Qed.

Lemma worker_pass_threads w now st t x :
  x <> Finished ->
  threads (worker_pass second w now st) !! t = Some x ->
  threads st !! t = Some x.
Proof.
  intros Hx. unfold worker_pass.
  destruct (stop_event st); simpl.
  - intros H. apply list_lookup_insert_Some in H as [(_ & <- & _)|[_ H]];
      [congruence | assumption].
  - destruct (decide (_ = ∅)); simpl; [|trivial].
    intros H. apply list_lookup_insert_Some in H as [(_ & <- & _)|[_ H]];
      [congruence | assumption].
Qed.

Lemma step_one_caller_inv l st st' :
  one_caller_inv st -> step second l st = Some st' -> one_caller_inv st'.
Proof.
  intros (p & Hc & Hp) Hstep. destruct l as [i lk pd|i now|w now]; simpl in Hstep.
  - rewrite Hc in Hstep. destruct i as [|i]; simpl in Hstep; [|discriminate].
    destruct p; try discriminate. injection Hstep as <-.
    exists (AtInsert lk pd). simpl. rewrite Hc. split; [reflexivity | assumption].
  - rewrite Hc in Hstep. destruct i as [|i]; simpl in Hstep; [|discriminate].
    destruct p; simpl in Hstep; try discriminate.
    + injection Hstep as <-. exists AtCheck. simpl. rewrite Hc.
      split; [reflexivity | assumption].
    + injection Hstep as <-. destruct Hp as [Hrun Hcre].
      destruct (no_live_timer st) eqn:E.
      * exists AtCreate. simpl. rewrite Hc. split; [reflexivity|].
        split; [|assumption]. intros t Ht.
        unfold no_live_timer in E. rewrite (Hrun t Ht) in E.
        rewrite bool_decide_eq_true_2 in E by assumption. discriminate.
      * exists Outside. simpl. rewrite Hc. split; [reflexivity|]. now split.
    + injection Hstep as <-. destruct Hp as [Hrun Hcre].
      exists AtStart. simpl. rewrite Hc. split; [reflexivity|]. split.
      * intros t Ht. apply lookup_app_Some in Ht as [Ht|[_ Ht]].
        -- now apply (Hrun t).
        -- destruct (t - length (threads st))%nat; simpl in Ht; discriminate.
      * exists (length (threads st)). split; [reflexivity|]. split.
        -- rewrite lookup_app_r by reflexivity.
           now rewrite Nat.sub_diag.
        -- intros t' Ht'. apply lookup_app_Some in Ht' as [Ht'|[Hle Ht']].
           ++ now apply Hcre in Ht'.
           ++ destruct (t' - length (threads st))%nat eqn:E; simpl in Ht';
                [lia | discriminate].
    + destruct Hp as (Hrun & t & Ht & Hcre & Huniq). rewrite Ht in Hstep.
      rewrite bool_decide_eq_true_2 in Hstep by assumption.
      injection Hstep as <-. exists Outside. simpl. rewrite Hc.
      split; [reflexivity|]. split.
      * intros t' Ht'. apply list_lookup_insert_Some in Ht' as [(<- & _)|[_ Ht']].
        -- congruence.
        -- now apply Hrun in Ht'.
      * intros t' Ht'. apply list_lookup_insert_Some in Ht' as [(_ & E & _)|[Hne Ht']].
        -- discriminate.
        -- apply Huniq in Ht'. congruence.
  - destruct (threads st !! w) as [[| |]|] eqn:Hw; try discriminate.
    injection Hstep as <-.
    assert (Hcallers : callers (worker_pass second w now st) = callers st).
    { unfold worker_pass. destruct (stop_event st); [reflexivity|].
      reflexivity. }
    assert (Htimer : timer_thread (worker_pass second w now st) = timer_thread st).
    { unfold worker_pass. destruct (stop_event st); reflexivity. }
    exists p. rewrite Hcallers. split; [assumption|].
    destruct p; try (destruct Hp as [Hrun _]; now apply Hrun in Hw).
    all: destruct Hp as [Hrun Hcre]; split;
      [ intros t Ht; rewrite Htimer; apply Hrun;
        now apply (worker_pass_threads w now st t Running)
      | intros t Ht; apply (Hcre t);
        now apply (worker_pass_threads w now st t Created) ].
Qed.

Lemma exec_one_caller_inv schedule st st' :
  one_caller_inv st -> exec second schedule st = Some st' -> one_caller_inv st'.
Proof.
  revert st. induction schedule as [|l rest IH]; intros st Hinv H; simpl in H.
  - now injection H as <-.
  - destruct (step second l st) as [st1|] eqn:E; [|discriminate].
    apply (IH st1); [|assumption]. now apply (step_one_caller_inv l st).
Qed.

(** C8, amended: when one thread makes the calls of [add_scan_request],
    one after another, as the dispatching thread of the observer does, a
    worker is started only when none is alive: whatever the steps of the
    caller and the turns of the workers, no two workers are ever alive. *)
Theorem one_caller_at_most_one_worker delay schedule st :
  exec second schedule (init delay 1) = Some st -> at_most_one_worker st.
Proof.
  intros H. apply exec_one_caller_inv in H; [|apply one_caller_inv_init].
  destruct H as (p & _ & Hp). intros t1 t2 H1 H2.
  destruct p; try (destruct Hp as [Hrun _]; now apply Hrun in H1);
    destruct Hp as [Hrun _]; apply Hrun in H1, H2; congruence.
Qed.

(** *** A call that nothing interrupts

    The statements of one call, run in a row by the only caller, do what
    [Main.add_scan_request] does in one step: the entry is written, and a
    worker is started exactly when none is alive. *)

Definition call_steps (library_key : Z) (parent_dir : string) (now : Z)
    (starts : bool) : list label :=
  Enter 0 library_key parent_dir :: Step 0 now :: Step 0 now ::
  (if starts then [Step 0 now; Step 0 now] else []).

Definition after_call_steps (library_key : Z) (parent_dir : string) (now : Z)
    (st : state) : state :=
  mkState (delay_seconds st)
    (<[Main.scan_key library_key parent_dir :=
         Main.mkPendingScan library_key parent_dir now]> (pending_scans st))
    (if no_live_timer st then threads st ++ [Running] else threads st)
    (if no_live_timer st then Some (length (threads st)) else timer_thread st)
    (stop_event st) [Outside] (sent st).

Lemma uninterrupted_call library_key parent_dir now st :
  callers st = [Outside] ->
  exec second (call_steps library_key parent_dir now (no_live_timer st)) st
  = Some (after_call_steps library_key parent_dir now st).
Proof.
  intros Hc. unfold call_steps, after_call_steps.
  destruct st as [d m ths tt stop cs snt]. simpl in Hc. subst cs.
  destruct (no_live_timer (mkState d m ths tt stop [Outside] snt)) eqn:E;
    cbn -[bool_decide]; unfold no_live_timer in *; cbn -[bool_decide] in *;
    rewrite E; cbn -[bool_decide].
  - rewrite lookup_app_r by reflexivity. rewrite Nat.sub_diag. cbn.
    unfold set_pc. cbn. do 2 f_equal.
    rewrite <- (Nat.add_0_r (length ths)) at 1.
    now rewrite insert_app_r.
  - reflexivity.
Qed.

End Workers.

(** Two threads call [add_scan_request] at the same time, for two keys:
    both make their entry, both find no live worker, and each goes on to
    create and start one. *)
Definition overlapping_calls : list Threads.label :=
  [Threads.Enter 0 1 "/lib/a"; Threads.Enter 1 2 "/lib/b";
   Threads.Step 0 0; Threads.Step 1 5;     (* the entries *)
   Threads.Step 0 5; Threads.Step 1 5;     (* the tests: no live worker *)
   Threads.Step 0 5; Threads.Step 0 5;     (* thread 0 is created and started *)
   Threads.Step 1 5; Threads.Step 1 5].    (* thread 1 is created and started *)

(** C8, as claimed, fails: after the overlapping calls two workers are
    alive, and each of them goes on to take entries out of the one pending
    map: worker 0 the entry of /lib/a at 30 s, worker 1 that of /lib/b
    at 35 s. *)
Lemma overlapping_calls_start_two_workers :
  (exists st,
      Threads.exec 1 overlapping_calls (Threads.init 30 2) = Some st /\
      Threads.threads st = [Threads.Running; Threads.Running] /\
      ~ Threads.at_most_one_worker st) /\
  (exists st,
      Threads.exec 1
        (overlapping_calls ++ [Threads.Pass 0 30; Threads.Pass 1 35])
        (Threads.init 30 2) = Some st /\
      Threads.sent st
      = [(0%nat, Main.mkScanRequest Main.Worker 30 1 "/lib/a");
         (1%nat, Main.mkScanRequest Main.Worker 35 2 "/lib/b")]).
Proof.
  split.
  - eexists. split; [vm_compute; reflexivity|]. split; [reflexivity|].
    intros H. specialize (H 0%nat 1%nat eq_refl eq_refl). discriminate.
  - eexists. split; [vm_compute; reflexivity|]. reflexivity.
Qed.

(** One thread calls, and the worker it starts takes its turn. *)
Definition one_call : list Threads.label :=
  [Threads.Enter 0 1 "/lib/a"; Threads.Step 0 0; Threads.Step 0 0;
   Threads.Step 0 0; Threads.Step 0 0; Threads.Pass 0 0].

Lemma one_caller_at_most_one_worker_witness :
  exists st,
    Threads.exec 1 one_call (Threads.init 30 1) = Some st /\
    Threads.at_most_one_worker st.
Proof.
  eexists. split; [vm_compute; reflexivity|].
  apply (one_caller_at_most_one_worker 1 30 one_call).
  vm_compute. reflexivity.
Defined.

(** * More about the store of known files *)

Section StoreMore.
Import Database.



Lemma select_cached_app rows1 rows2 k p :
  select_cached (rows1 ++ rows2) k p
  = select_cached rows1 k p || select_cached rows2 k p.
Proof. unfold select_cached. apply existsb_app. Qed.

(** X2: what is looked up after a bulk insert. The pair (k, p) is found
    exactly when it was in the store already, or no row of the store had
    the path [p] and (k, p) is the first pair of the batch with that path.
    In particular a look-up that hits before the insert hits after it. *)
Theorem lookup_after_insert data rows k p :
  select_cached (executemany data rows) k p = true <->
  In (mkRow k p) rows \/
  (first_for_path data (mkRow k p) /\ ~ In p (paths rows)).
Proof.
  destruct (executemany_appends data rows) as (added & -> & Hadded).
  rewrite select_cached_app, orb_true_iff, !select_cached_spec.
  now rewrite Hadded.
Qed.

Lemma executemany_known data rows :
  (forall kp, In kp data -> In (snd kp) (paths rows)) ->
  executemany data rows = rows.
Proof.
  unfold executemany. induction data as [|[k p] data IH]; intros H; simpl;
    [reflexivity|].
  destruct (insert_or_ignore_cases rows k p) as [[_ ->]|[Hnin _]].
  - apply IH. intros kp Hin. apply H. now right.
  - exfalso. apply Hnin. apply (H (k, p)). now left.
Qed.

Lemma executemany_paths data rows kp :
  In kp data -> In (snd kp) (paths (executemany data rows)).
Proof.
  unfold executemany. revert rows.
  induction data as [|[k p] data IH]; intros rows; [intros []|].
  intros [<-|Hin]; simpl.
  - destruct (executemany_appends data (insert_or_ignore rows (k, p)))
      as (added & Heq & _).
    unfold executemany in Heq. rewrite Heq. unfold paths.
    rewrite map_app, in_app_iff. left.
    destruct (insert_or_ignore_cases rows k p) as [[Hin ->]|[_ ->]];
      [assumption|].
    rewrite map_app, in_app_iff. right. now left.
  - now apply IH.
Qed.

(** X3: a bulk insert is idempotent, on the rows and on the disk: the
    same batch inserted a second time changes nothing, and after an
    insert every path of the batch is in the store. *)
Theorem insert_twice data db disk :
  insert_plex_library_files data db (insert_plex_library_files data db disk)
  = insert_plex_library_files data db disk /\
  (forall rows, executemany data (executemany data rows) = executemany data rows) /\
  (forall rows kp, In kp data -> In (snd kp) (paths (executemany data rows))).
Proof.
  assert (Hidem : forall rows,
             executemany data (executemany data rows) = executemany data rows).
  { intros rows. apply executemany_known. intros kp.
    apply executemany_paths. }
  split; [|split; [assumption|]].
  - unfold insert_plex_library_files.
    destruct (connection db); [|reflexivity].
    destruct (disk !! db_path db) as [[|[rows|]]|] eqn:E; rewrite ?E;
      try reflexivity.
    rewrite lookup_insert_eq, Hidem. apply insert_insert_eq.
  - intros rows kp. apply executemany_paths.
Qed.

End StoreMore.

(** * More about the settings *)

Section SettingsMore.
Import Settings.

Lemma as_str_list_dump l : as_str_list (JArr (map JStr l)) = Some l.
Proof.
  unfold as_str_list. apply mapM_Some.
  induction l as [|x l IH]; simpl; constructor; [reflexivity | assumption].
Qed.

(** X4: what [model_dump_json] writes, [model_validate_json] reads back
    unchanged; so the settings file that a first start writes, there being
    none, gives a second start the settings of the first. *)
Theorem settings_round_trip :
  (forall s, model_validate_json (model_dump_json s) = Some s) /\
  (load_or_create_settings_file (load_or_create_settings_file None).2).1
  = (load_or_create_settings_file None).1.
Proof.
  assert (H : forall s, model_validate_json (model_dump_json s) = Some s).
  { intros [l m p [u t]]. unfold model_validate_json, model_dump_json, field.
    cbn [log_level media_extensions library_paths plex].
    pose proof (as_str_list_dump m) as Hm.
    pose proof (as_str_list_dump p) as Hp.
    remember (JArr (map JStr m)) as jm. remember (JArr (map JStr p)) as jp.
    cbn. rewrite Hm. cbn. rewrite Hp. reflexivity. }
  split; [assumption|].
  exact (H default_settings).
Qed.





End SettingsMore.

(** * More about the libraries *)

Section Dictionaries.
Import Plex.

Lemma dict_get_set_eq {V} k (v : V) d : dict_get k (dict_set k v d) = Some v.
Proof.
  induction d as [|[k' v'] d IH]; simpl.
  - now rewrite String.eqb_refl.
  - destruct (String.eqb k' k) eqn:E; simpl.
    + now rewrite String.eqb_refl.
    + now rewrite E.
Qed.

Lemma dict_get_set_ne {V} k k' (v : V) d :
  k <> k' -> dict_get k' (dict_set k v d) = dict_get k' d.
Proof.
  intros Hne. induction d as [|[k0 v0] d IH]; simpl.
  - apply String.eqb_neq in Hne. now rewrite Hne.
  - destruct (String.eqb k0 k) eqn:E; simpl.
    + apply String.eqb_eq in E. subst k0.
      apply String.eqb_neq in Hne. now rewrite Hne.
    + now rewrite IH.
Qed.

Lemma dict_set_present {V} k (v : V) d :
  In k (map fst d) -> map fst (dict_set k v d) = map fst d.
Proof.
  induction d as [|[k' v'] d IH]; simpl; [intros []|].
  destruct (String.eqb k' k) eqn:E; simpl.
  - apply String.eqb_eq in E. now subst k'.
  - apply String.eqb_neq in E. intros [H|H]; [congruence|]. now rewrite IH.
Qed.

Lemma dict_set_fresh {V} k (v : V) d :
  ~ In k (map fst d) -> dict_set k v d = d ++ [(k, v)].
Proof.
  induction d as [|[k' v'] d IH]; simpl; intros H; [reflexivity|].
  destruct (String.eqb k' k) eqn:E.
  - apply String.eqb_eq in E. tauto.
  - rewrite IH by tauto. reflexivity.
Qed.

Lemma get_library_ids_snoc sections s :
  get_library_ids (sections ++ [s])
  = dict_set (title s) (key s) (get_library_ids sections).
Proof. unfold get_library_ids. now rewrite fold_left_app. Qed.

Lemma get_library_ids_keys sections t :
  In t (map fst (get_library_ids sections)) <-> In t (map title sections).
Proof.
  induction sections as [|s sections IH] using rev_ind; [reflexivity|].
  rewrite get_library_ids_snoc, map_app, in_app_iff. simpl.
  destruct (In_dec string_dec (title s) (map fst (get_library_ids sections)))
    as [Hin|Hnin].
  - rewrite dict_set_present by assumption. rewrite IH.
    split; [tauto|]. intros [H|[<-|[]]]; [assumption|]. now apply IH.
  - rewrite dict_set_fresh by assumption.
    rewrite map_app, in_app_iff, IH. simpl. tauto.
Qed.

(** X6: the dictionary of library ids has one item for each title, in the
    order in which the titles first appear, and the id under a title is
    the key of the last section with that title: of two libraries with the
    same title only the second can be found. When no two sections share a
    title, the items are the sections' titles and keys, one for one. *)
Theorem get_library_ids_spec sections :
  NoDup (map fst (get_library_ids sections)) /\
  (forall t k,
      dict_get t (get_library_ids sections) = Some k <->
      exists before s after,
        sections = before ++ s :: after /\ title s = t /\ key s = k /\
        forall s', In s' after -> title s' <> t) /\
  (NoDup (map title sections) ->
   get_library_ids sections = map (fun s => (title s, key s)) sections).
Proof.
  induction sections as [|s sections (IHnd & IHget & IHall)] using rev_ind.
  - split; [constructor|]. split.
    + intros t k. split; [discriminate|].
      intros (b & s & a & H & _). destruct b; discriminate.
    + reflexivity.
  - rewrite get_library_ids_snoc. split; [|split].
    + destruct (In_dec string_dec (title s)
                  (map fst (get_library_ids sections))) as [Hin|Hnin];
        [now rewrite dict_set_present|].
      rewrite dict_set_fresh by assumption. rewrite map_app. simpl.
      apply NoDup_app. split; [assumption|]. split.
      * intros x Hx Hx'. apply list_elem_of_In in Hx, Hx'.
        destruct Hx' as [<-|[]]. contradiction.
      * apply NoDup_singleton.
    + intros t k. destruct (decide (title s = t)) as [<-|Hne].
      * rewrite dict_get_set_eq. split.
        -- intros [= <-]. exists sections, s, []. repeat split. intros s' [].
        -- intros (b & s0 & a & Heq & Ht & Hk & Hafter).
           destruct a as [|x a _] using rev_ind.
           ++ apply app_inj_tail in Heq as [_ <-]. now rewrite Hk.
           ++ rewrite app_comm_cons, app_assoc in Heq.
              apply app_inj_tail in Heq as [_ <-].
              exfalso. apply (Hafter s); [|reflexivity].
              rewrite in_app_iff. right. now left.
      * rewrite dict_get_set_ne by assumption. rewrite IHget. split.
        -- intros (b & s0 & a & -> & Ht & Hk & Hafter).
           exists b, s0, (a ++ [s]). rewrite <- app_assoc. repeat split;
             try assumption.
           intros s' Hin. apply in_app_iff in Hin as [Hin|[<-|[]]];
             [now apply Hafter | assumption].
        -- intros (b & s0 & a & Heq & Ht & Hk & Hafter).
           destruct a as [|x a _] using rev_ind.
           ++ apply app_inj_tail in Heq as [_ <-]. contradiction.
           ++ rewrite app_comm_cons, app_assoc in Heq.
              apply app_inj_tail in Heq as [-> <-].
              exists b, s0, a. repeat split; try assumption.
              intros s' Hin. apply Hafter. rewrite in_app_iff. now left.
    + rewrite !map_app. simpl. intros Hnd.
      apply NoDup_app in Hnd as (Hnd & Hdisj & _).
      rewrite IHall by assumption. rewrite dict_set_fresh; [reflexivity|].
      rewrite <- IHall by assumption. rewrite get_library_ids_keys.
      intros Hin. apply (Hdisj (title s)).
      * now apply list_elem_of_In.
      * apply list_elem_of_In. now left.
Qed.

End Dictionaries.

(** * More about the start-up reconciliation *)

Section ReconcileMore.
Import Plex.

Variable path_exists : string -> bool.
Variable os_walk : string -> list (string * list string * list string).
Variable path_str : string -> string -> string.
Variable select_raises : Z -> string -> bool.
Variable update_outcome : Z -> string -> option exn.





End ReconcileMore.

(** ** The cache of library files *)

Section CacheMore.
Import Plex Database.

Lemma executemany_key_added k files rows :
  exists added,
    executemany (map (pair k) files) rows = rows ++ added /\
    (forall r, In r added ->
       library_key r = k /\ In (file_path r) files /\
       ~ In (file_path r) (paths rows)).
Proof.
  destruct (executemany_appends (map (pair k) files) rows) as (added & -> & H).
  exists added. split; [reflexivity|].
  intros r Hin. apply H in Hin as [(b & a & Heq & _) Hnin].
  assert (Hr : In (library_key r, file_path r) (map (pair k) files)).
  { rewrite Heq. rewrite in_app_iff. right. now left. }
  apply in_map_iff in Hr as (f & Hpair & Hf).
  injection Hpair as Hk Hp. subst f. now repeat split.
Qed.

(** X8: [cache_library_files] lets no [PlexApiException] through. When
    it returns, it has touched the table of its own database only, kept
    the rows that were there and added rows of the given library alone,
    each for a file the server lists in the section and whose path was not
    in the store; with a connection and a table, every file the server
    lists in the section is in the store afterwards. Without a server or
    for an unknown section it changes nothing. *)
Theorem cache_library_files_outcome server db k disk :
  cache_library_files server db k disk <> Raise PlexApiException /\
  forall disk', cache_library_files server db k disk = Return disk' ->
    (forall q, q <> db_path db -> disk' !! q = disk !! q) /\
    (exists added,
        rows_of db disk' = rows_of db disk ++ added /\
        forall r, In r added ->
          library_key r = k /\ ~ In (file_path r) (paths (rows_of db disk)) /\
          exists sections section files,
            server = Some sections /\ sectionByID sections k = Some section /\
            section_files section = Some files /\ In (file_path r) files) /\
    (forall sections section files rows,
        server = Some sections -> sectionByID sections k = Some section ->
        section_files section = Some files ->
        connection db = true -> disk !! db_path db = Some (DbFile (Some rows)) ->
        forall f, In f files -> In f (paths (rows_of db disk'))) /\
    (server = None \/
     (exists sections, server = Some sections /\ sectionByID sections k = None) ->
     disk' = disk).
Proof.
  unfold cache_library_files.
  destruct server as [sections|].
  2:{ split; [discriminate|]. intros disk' [= <-].
      split; [reflexivity|]. split; [|split; [discriminate | reflexivity]].
      exists []. rewrite app_nil_r. split; [reflexivity | intros r []]. }
  destruct (sectionByID sections k) as [section|] eqn:Esec.
  2:{ split; [discriminate|]. intros disk' [= <-].
      split; [reflexivity|]. split; [|split; [|reflexivity]].
      - exists []. rewrite app_nil_r. split; [reflexivity | intros r []].
      - intros sections' section' files' rows [= <-] Hs. congruence. }
  destruct (section_files section) as [files|] eqn:Efiles.
  2:{ split; [discriminate|]. discriminate. }
  split; [discriminate|]. intros disk' [= <-].
  unfold insert_plex_library_files, rows_of.
  split; [|split; [|split]].
  - intros q Hq. destruct (connection db); [|reflexivity].
    destruct (disk !! db_path db) as [[|[rows|]]|]; try reflexivity.
    now rewrite lookup_insert_ne by congruence.
  - destruct (connection db).
    2:{ exists []. rewrite app_nil_r. split; [reflexivity | intros r []]. }
    destruct (disk !! db_path db) as [[|[rows|]]|] eqn:E; rewrite ?E;
      try (exists []; rewrite ?app_nil_r; split; [reflexivity | intros r []]).
    rewrite lookup_insert_eq.
    destruct (executemany_key_added k files rows) as (added & -> & Hadded).
    exists added. split; [reflexivity|].
    intros r Hin. apply Hadded in Hin as (Hk & Hf & Hnin).
    repeat split; try assumption.
    exists sections, section, files. now repeat split.
  - intros sections' section' files' rows [= <-] Hs Hf Hconn Hdisk f Hin.
    rewrite Esec in Hs. injection Hs as <-. rewrite Efiles in Hf.
    injection Hf as <-. rewrite Hconn, Hdisk, lookup_insert_eq.
    apply (executemany_paths (map (pair k) files) rows (k, f)).
    now apply in_map.
  - intros [H|(sections' & [= <-] & H)]; congruence.
Qed.

End CacheMore.

(** * The batch manager under any calls *)

Section Coalescing.
Import Main.

Variable second : Z.
Hypothesis second_pos : 0 < second.
Variable delay : Z.
Hypothesis delay_nonneg : 0 <= delay.

(** The library and the directory that are followed. *)
Variable lk : Z.
Variable pd : string.

#[local] Existing Instance for_key_dec.
#[local] Existing Instance is_request_dec.

(** The entry of the followed key, if there is one, is that of the last
    call for the key, and the worker tests it within a second of its
    becoming ready; if there is none, every call for the key has been
    followed by a request a window later or more. *)
Definition pending_ok (cs : list Call) (self : BatchScanManager) : Prop :=
  match pending_scans self !! scan_key lk pd with
  | Some scan =>
      scan = mkPendingScan lk pd (timestamp scan) /\
      (exists c, In c cs /\ for_key lk pd c /\ call_time c = timestamp scan) /\
      (forall c, In c cs -> for_key lk pd c -> call_time c <= timestamp scan) /\
      (forall w, timer_thread self = Some w ->
         w <= timestamp scan + delay * second + second)
  | None =>
      forall c, In c cs -> for_key lk pd c ->
        exists r, In r (requests_for lk pd (plex self)) /\
                  call_time c + delay * second <= sent_at r
  end.

(** A request of the worker for the followed key: made a window, and at
    most a second more, after a call for the key, with no call for the
    key in the window before it. *)
Definition request_ok (now : Z) (cs : list Call) (r : ScanRequest) : Prop :=
  sent_by r = Worker /\
  sent_at r <= now /\
  (exists c, In c cs /\ for_key lk pd c /\
     call_time c + delay * second <= sent_at r
       <= call_time c + delay * second + second) /\
  (forall c, In c cs -> for_key lk pd c ->
     call_time c + delay * second <= sent_at r \/ sent_at r <= call_time c).

Definition pending_count (self : BatchScanManager) : nat :=
  match pending_scans self !! scan_key lk pd with
  | Some _ => 1
  | None => 0
  end.

(** What holds of the manager after the calls [cs], no call or turn of
    the worker being later than [now]. *)
Definition good (now : Z) (cs : list Call) (self : BatchScanManager) : Prop :=
  stop_event self = false /\
  delay_seconds self = delay /\
  consistent (pending_scans self) /\
  (pending_scans self <> ∅ <-> is_Some (timer_thread self)) /\
  (forall w, timer_thread self = Some w -> w <= now + second) /\
  (forall c, In c cs -> call_time c <= now) /\
  pending_ok cs self /\
  (forall r, In r (requests_for lk pd (plex self)) -> request_ok now cs r) /\
  (length (requests_for lk pd (plex self)) + pending_count self
   <= length (filter (for_key lk pd) cs))%nat.

Lemma request_ok_mono now now' cs r :
  now <= now' -> request_ok now cs r -> request_ok now' cs r.
Proof.
  intros Hle (H1 & H2 & H3 & H4). repeat split; try assumption. lia.
Qed.

Lemma good_mono now now' cs self :
  now <= now' -> good now cs self -> good now' cs self.
Proof.
  intros Hle (Hs & Hd & Hc & Hne & Hw & Hcs & Hp & Hr & Hn).
  unfold good. split_and!; try assumption.
  - intros w E. specialize (Hw w E). lia.
  - intros c Hin. specialize (Hcs c Hin). lia.
  - intros r Hin. eapply request_ok_mono; [eassumption | now apply Hr].
Qed.

Lemma good_init now : good now [] (init delay).
Proof.
  unfold good, pending_ok, pending_count. simpl.
  split_and!; try done.
  rewrite lookup_empty. intros c [].
Qed.

Lemma window_nonneg' : 0 <= delay * second.
Proof. apply Z.mul_nonneg_nonneg; lia. Qed.

(** *** One turn of the worker *)

Lemma batch_pass_good now cs self w :
  good now cs self -> timer_thread self = Some w ->
  good (Z.max now w) cs (batch_pass second w self).
Proof.
  intros (Hs & Hd & Hc & Hne & Hw & Hcs & Hp & Hr & Hn) Ht.
  destruct (batch_pass_running second w self Hs) as (Ep & Ed & Em & Et & Es).
  assert (Hreq : requests_for lk pd (plex (batch_pass second w self))
            = requests_for lk pd (plex self)
              ++ match ready_part second w self !! scan_key lk pd with
                 | Some scan => [request_of Worker w scan]
                 | None => []
                 end).
  { rewrite Ep, requests_for_app. f_equal.
    apply requests_for_values. now apply consistent_filter. }
  assert (Htimer : forall w', timer_thread (batch_pass second w self) = Some w' ->
            w' = w + second).
  { intros w'. rewrite Et. destruct (decide _); congruence. }
  assert (Hold : forall r, In r (requests_for lk pd (plex self)) ->
            request_ok (Z.max now w) cs r).
  { intros r Hin. apply (request_ok_mono now); [lia | now apply Hr]. }
  unfold good, pending_ok, pending_count in *.
  split; [assumption|]. split; [congruence|].
  split; [rewrite Em; now apply consistent_filter|].
  split.
  { rewrite Em, Et. destruct (decide _) as [E|E]; split; try done.
    all: try (intros H; now apply is_Some_None in H). }
  split; [intros w' E; apply Htimer in E; lia|].
  split; [intros c Hin; specialize (Hcs c Hin); lia|].
  rewrite Hreq, Em.
  destruct (pending_scans self !! scan_key lk pd) as [scan|] eqn:Hsome.
  - destruct Hp as (Hscan & Hex & Hall & Hb).
    destruct (decide (delay * second <= w - timestamp scan)) as [Hready|Hnot].
    + destruct (parts_lookup_ready second w self _ _ Hsome) as [E1 E2];
        [rewrite Hd; assumption|].
      rewrite E1, E2. specialize (Hb w Ht).
      split; [|split].
      * intros c Hin Hfor. exists (request_of Worker w scan).
        split; [apply in_app_iff; right; now left|].
        simpl. specialize (Hall c Hin Hfor). lia.
      * intros r Hin. apply in_app_iff in Hin as [Hin|[<-|[]]]; [now apply Hold|].
        unfold request_ok. simpl. split_and!; try done; try lia.
        -- destruct Hex as (c & Hin & Hfor & Htime). exists c.
           split_and!; try assumption; lia.
        -- intros c Hin Hfor. left. specialize (Hall c Hin Hfor). lia.
      * rewrite length_app. simpl. lia.
    + destruct (parts_lookup_waiting second w self _ _ Hsome) as [E1 E2];
        [rewrite Hd; assumption|].
      rewrite E1, E2, app_nil_r.
      split; [|split; assumption].
      repeat split; try assumption.
      intros w' E. apply Htimer in E. lia.
  - destruct (parts_lookup_none second w self _ Hsome) as [E1 E2].
    rewrite E1, E2, app_nil_r. split_and!; assumption.
Qed.

Lemma batch_processor_good n limit now cs self :
  good now cs self ->
  good (Z.max now limit) cs (batch_processor second n limit self).
Proof.
  revert now self. induction n as [|n IH]; intros now self Hgood.
  - eapply good_mono; [|eassumption]. lia.
  - simpl. destruct (timer_thread self) as [w|] eqn:Ht.
    2:{ eapply good_mono; [|eassumption]. lia. }
    destruct (Z.leb_spec w limit) as [Hle|Hgt].
    2:{ eapply good_mono; [|eassumption]. lia. }
    eapply good_mono; [|apply IH, (batch_pass_good now); eassumption]. lia.
Qed.

Lemma advance_good limit now cs self :
  good now cs self -> good (Z.max now limit) cs (advance second limit self).
Proof.
  intros Hgood. unfold advance. destruct (timer_thread self) eqn:E.
  - now apply batch_processor_good.
  - eapply good_mono; [|eassumption]. lia.
Qed.

(** *** A call of the watcher *)

Lemma add_scan_request_good now cs self c :
  good now cs self -> now <= call_time c ->
  good (call_time c) (cs ++ [c])
    (add_scan_request (call_time c) (call_key c) (call_dir c) self).
Proof.
  intros (Hs & Hd & Hc & Hne & Hw & Hcs & Hp & Hr & Hn) Hle.
  pose proof window_nonneg' as HD.
  assert (Hthread : forall w,
            match timer_thread self with
            | Some w0 => Some w0
            | None => Some (call_time c)
            end = Some w -> w <= call_time c + second).
  { intros w. destruct (timer_thread self) as [w0|] eqn:E; intros [= <-];
      [specialize (Hw w0 eq_refl)|]; lia. }
  unfold good, pending_ok, pending_count in *.
  split; [assumption|]. split; [assumption|].
  split.
  { intros k scan. simpl. rewrite lookup_insert. case_decide.
    - intros [= <-]. simpl. assumption.
    - apply Hc. }
  split.
  { simpl. split.
    - intros _. destruct (timer_thread self); eauto.
    - intros _. apply insert_non_empty. }
  split; [exact Hthread|].
  split.
  { intros c' Hin. apply in_app_iff in Hin as [Hin|[<-|[]]]; [|lia].
    specialize (Hcs c' Hin). lia. }
  rewrite filter_app, length_app.
  assert (Hreqs : forall r, In r (requests_for lk pd (plex self)) ->
            request_ok (call_time c) (cs ++ [c]) r).
  { intros r Hin. destruct (Hr r Hin) as (H1 & H2 & (c0 & Hin0 & H3) & H4).
    unfold request_ok. split_and!; try assumption; try lia.
    - exists c0. split; [apply in_app_iff; now left | assumption].
    - intros c' Hin' Hfor. apply in_app_iff in Hin' as [Hin'|[<-|[]]].
      + now apply H4.
      + right. lia. }
  simpl plex. simpl pending_scans. simpl timer_thread.
  destruct (decide (for_key lk pd c)) as [[Hk1 Hk2]|Hother].
  - rewrite Hk1, Hk2, lookup_insert_eq. simpl.
    split; [|split; [assumption|]].
    + split; [reflexivity|]. split.
      * exists c. split; [apply in_app_iff; right; now left|]. now repeat split.
      * split.
        -- intros c' Hin _. apply in_app_iff in Hin as [Hin|[<-|[]]]; [|lia].
           specialize (Hcs c' Hin). lia.
        -- intros w E. apply Hthread in E. lia.
    + rewrite filter_cons, decide_True by now split. simpl.
      destruct (pending_scans self !! scan_key lk pd); lia.
  - assert (Hkey : scan_key (call_key c) (call_dir c) <> scan_key lk pd).
    { intros H. apply scan_key_inj in H. contradiction. }
    rewrite lookup_insert_ne by assumption.
    rewrite filter_cons, decide_False by assumption. simpl.
    split; [|split; [assumption | lia]].
    destruct (pending_scans self !! scan_key lk pd) as [scan|] eqn:Hsome.
    + destruct Hp as (Hscan & (c0 & Hin0 & Hex) & Hall & Hb).
      split; [assumption|]. split; [|split].
      * exists c0. split; [apply in_app_iff; now left | assumption].
      * intros c' Hin Hfor. apply in_app_iff in Hin as [Hin|[<-|[]]];
          [now apply Hall | contradiction].
      * destruct (timer_thread self) as [w0|] eqn:E; [assumption|].
        exfalso. destruct Hne as [Hne _]. destruct Hne as [w0 Hw0]; [|discriminate].
        intros Hempty. rewrite Hempty, lookup_empty in Hsome. discriminate.
    + intros c' Hin Hfor. apply in_app_iff in Hin as [Hin|[<-|[]]];
        [now apply Hp | contradiction].
Qed.

(** *** A run of calls *)

Lemma run_good calls now cs self :
  good now cs self -> times_ok now calls ->
  good (end_time now calls) (cs ++ calls) (run second calls self).
Proof.
  revert now cs self. induction calls as [|c calls IH]; intros now cs self Hgood Ht.
  - simpl. now rewrite app_nil_r.
  - simpl in *. destruct Ht as [Hle Ht].
    assert (Hlim : worker_limit c <= call_time c)
      by (unfold worker_limit; destruct (after_worker c); lia).
    pose proof (advance_good (worker_limit c) now cs self Hgood) as H1.
    apply (add_scan_request_good _ _ _ c) in H1; [|lia].
    specialize (IH _ _ _ H1 Ht). now rewrite <- app_assoc in IH.
Qed.

(** The manager after the calls, the worker watched up to [horizon]. *)
Lemma watched_good calls horizon :
  Sorted Z.le (map call_time calls) ->
  exists now,
    good now calls (advance second horizon (run second calls (init delay))) /\
    horizon <= now /\
    (forall t, horizon <= t -> Forall (fun c => call_time c <= t) calls ->
       now <= t).
Proof.
  intros Hsorted. destruct calls as [|c0 rest].
  - exists horizon. split; [|split; [lia | intros; lia]].
    apply (good_mono (Z.max horizon horizon)); [lia|].
    apply advance_good, good_init.
  - exists (Z.max (end_time (call_time c0) (c0 :: rest)) horizon).
    split; [|split; [lia|]].
    + apply advance_good.
      apply (run_good (c0 :: rest) (call_time c0) [] (init delay)).
      * apply good_init.
      * apply times_ok_sorted. constructor; [assumption|].
        constructor. reflexivity.
    + intros t Ht Hhor. apply Z.max_lub; [|assumption].
      apply end_time_le; [|assumption].
      now apply Forall_cons in Hhor as [? _].
Qed.

End Coalescing.

(** ** What the calls get *)

Section Served.
Import Main.

Variable second : Z.
Hypothesis second_pos : 0 < second.
Variable delay : Z.
Hypothesis delay_nonneg : 0 <= delay.

#[local] Existing Instance for_key_dec.
#[local] Existing Instance is_request_dec.




(** X11: for each library and directory there are no more requests than
    calls, an entry that is pending counting as a request. *)
Theorem requests_at_most_calls calls horizon lk pd :
  Sorted Z.le (map call_time calls) ->
  (length (requests_for lk pd
             (plex (advance second horizon (run second calls (init delay)))))
   + pending_count lk pd (advance second horizon (run second calls (init delay)))
   <= length (filter (for_key lk pd) calls))%nat.
Proof.
  intros Hsorted.
  destruct (watched_good second second_pos delay delay_nonneg lk pd calls
              horizon Hsorted) as (now & Hgood & _).
  apply Hgood.
Qed.



End Served.

(** *** Calls that come in two bursts

    A window of two seconds, ten ticks to the second: calls for library 1
    and /lib/a at 0 s and 0.5 s, a call for library 2 and /lib/b at 1.2 s,
    and a call for library 1 and /lib/a again at 6 s, ahead of the turn of
    the worker. *)

Definition spaced : list Main.Call :=
  [Main.mkCall 0 1 "/lib/a" true; Main.mkCall 5 1 "/lib/a" true;
   Main.mkCall 12 2 "/lib/b" true; Main.mkCall 60 1 "/lib/a" false].

Example spaced_requests :
  Main.plex (Main.advance 10 200 (Main.run 10 spaced (Main.init 2)))
  = [Main.mkScanRequest Main.Worker 30 1 "/lib/a";
     Main.mkScanRequest Main.Worker 40 2 "/lib/b";
     Main.mkScanRequest Main.Worker 80 1 "/lib/a"].
Proof. vm_compute. reflexivity. Qed.



Lemma requests_at_most_calls_witness :
  (length (requests_for 1 "/lib/a"
             (Main.plex (Main.advance 10 70 (Main.run 10 spaced (Main.init 2)))))
   + pending_count 1 "/lib/a" (Main.advance 10 70 (Main.run 10 spaced (Main.init 2)))
   <= length (filter (for_key 1 "/lib/a") spaced))%nat.
Proof.
  apply (requests_at_most_calls 10 ltac:(lia) 2 ltac:(lia) spaced 70 1 "/lib/a").
  repeat constructor; vm_compute; discriminate.
Defined.


(** * The event handler *)

(** ** The turns of the worker between two events *)

Section WorkerTurns.
Import Main.

Variable second : Z.
Hypothesis second_pos : 0 < second.








End WorkerTurns.

(** ** Events and calls *)

Section Watched.
Import Main.

Variable second : Z.
Hypothesis second_pos : 0 < second.
Variable the_plex : Plex.Plex.




Lemma watch_settings notices self :
  settings (watch second the_plex notices self) = settings self.
Proof.
  revert self. induction notices as [|n rest IH]; intros self; [reflexivity|].
  simpl. rewrite IH. unfold on_any_event.
  destruct (negb _); [reflexivity|].
  now destruct (Plex.find_library_by_path _ _).
Qed.






End Watched.

(** ** What the events get *)

Section Handled.
Import Main.

Variable second : Z.
Hypothesis second_pos : 0 < second.
Variable the_plex : Plex.Plex.
Variable the_settings : Settings.Settings.

#[local] Existing Instance for_key_dec.
#[local] Existing Instance is_request_dec.





End Handled.

(** *** Events in one directory

    Ten ticks to the second. In /lib/a/show an episode is created at 0 s
    and modified at 0.3 s; another is deleted, a text file is created and
    a directory named like a film is created. *)

Definition show_events : list Main.Notice :=
  [Main.mkNotice 0
     (Main.mkFileSystemEvent "created" "/lib/a/show/ep1.MKV" "" false) true;
   Main.mkNotice 3
     (Main.mkFileSystemEvent "modified" "/lib/a/show/ep1.MKV" "" false) true;
   Main.mkNotice 5
     (Main.mkFileSystemEvent "deleted" "/lib/a/show/ep0.mkv" "" false) true;
   Main.mkNotice 8
     (Main.mkFileSystemEvent "created" "/lib/a/show/ep1.nfo" "" false) true;
   Main.mkNotice 9
     (Main.mkFileSystemEvent "created" "/lib/a/extras.mkv" "" true) true].

Example show_events_requests :
  Main.plex
    (Main.advance 10 400
       (Main.batch_manager
          (Main.watch 10 plex_a show_events
             (Main.handler_init Settings.default_settings))))
  = [Main.mkScanRequest Main.Worker 310 1 "/lib/a/show"].
Proof. vm_compute. reflexivity. Qed.



(** * File extensions *)

Section Extensions.
Import PyStr.

(** The character [c] does not occur in [s]. *)
Fixpoint free_of (c : ascii) (s : string) : Prop :=
  match s with
  | EmptyString => True
  | String d rest => c <> d /\ free_of c rest
  end.

Lemma rfind_from_none c s i : rfind_from c s i = None <-> free_of c s.
Proof.
  revert i. induction s as [|d s IH]; intros i; simpl; [tauto|].
  destruct (rfind_from c s (S i)) as [j|] eqn:E.
  - split; [discriminate|]. intros [_ H]. apply (IH (S i)) in H. congruence.
  - destruct (Ascii.eqb_spec c d) as [->|Hne].
    + split; [discriminate | tauto].
    + split; [|reflexivity]. intros _. split; [assumption|].
      now apply (IH (S i)).
Qed.

(** [rfind] finds the last occurrence. *)
Lemma rfind_from_last c pre ext i :
  free_of c ext ->
  rfind_from c (pre ++ String c ext) i = Some (i + String.length pre)%nat.
Proof.
  intros Hfree. revert i. induction pre as [|d pre IH]; intros i.
  - simpl. apply (rfind_from_none c ext (S i)) in Hfree. rewrite Hfree.
    rewrite Ascii.eqb_refl. f_equal. lia.
  - rewrite append_String. simpl. rewrite IH. f_equal. lia.
Qed.

Lemma rfind_from_some c s i j :
  rfind_from c s i = Some j ->
  exists pre ext,
    s = (pre ++ String c ext)%string /\ free_of c ext /\
    j = (i + String.length pre)%nat.
Proof.
  revert i. induction s as [|d s IH]; intros i; simpl; [discriminate|].
  destruct (rfind_from c s (S i)) as [j'|] eqn:E.
  - intros [= <-]. destruct (IH _ E) as (pre & ext & -> & Hfree & ->).
    exists (String d pre), ext. rewrite append_String. simpl.
    split_and!; [reflexivity | assumption | lia].
  - destruct (Ascii.eqb_spec c d) as [->|Hne]; [|discriminate].
    intros [= <-]. exists EmptyString, s. simpl.
    split_and!; [reflexivity | now apply (rfind_from_none d s (S i)) | lia].
Qed.

Lemma length_append (a b : string) :
  String.length (a ++ b) = (String.length a + String.length b)%nat.
Proof.
  induction a as [|c a IH]; [reflexivity|].
  rewrite append_String. simpl. now rewrite IH.
Qed.

Lemma substring_all (s : string) : String.substring 0 (String.length s) s = s.
Proof. induction s as [|c s IH]; simpl; [reflexivity | now rewrite IH]. Qed.

Lemma substring_skip (pre s : string) n :
  String.substring (String.length pre) n (pre ++ s) = String.substring 0 n s.
Proof.
  induction pre as [|c pre IH]; [reflexivity|].
  rewrite append_String. simpl. exact IH.
Qed.

(** X15: [suffix] gives the part of a name from its last dot on, when
    there is something before that dot and something after it, and the
    empty string otherwise. *)
Theorem suffix_spec name :
  (forall pre ext,
     name = (pre ++ String "." ext)%string -> free_of "." ext ->
     suffix name
     = if decide (pre = EmptyString \/ ext = EmptyString) then EmptyString
       else String "." ext) /\
  (free_of "." name -> suffix name = EmptyString).
Proof.
  split.
  - intros pre ext -> Hfree. unfold suffix, rfind.
    rewrite rfind_from_last by assumption. simpl Nat.add.
    rewrite length_append. simpl String.length.
    destruct (decide (pre = EmptyString \/ ext = EmptyString)) as [[->| ->]|Hne].
    + reflexivity.
    + replace (String.length pre <? _)%nat with false;
        [now rewrite andb_false_r|].
      symmetry. apply Nat.ltb_ge. simpl. lia.
    + destruct pre as [|c pre]; [exfalso; apply Hne; now left|].
      destruct ext as [|d ext]; [exfalso; apply Hne; now right|].
      replace (0 <? String.length (String c pre))%nat with true
        by (symmetry; apply Nat.ltb_lt; simpl; lia).
      replace (String.length (String c pre) <? _)%nat with true
        by (symmetry; apply Nat.ltb_lt; simpl; lia).
      simpl andb. cbv iota.
      rewrite substring_skip.
      replace (_ - _)%nat with (String.length (String "." (String d ext)))
        by (simpl; lia).
      apply substring_all.
  - intros Hfree. unfold suffix, rfind.
    apply (rfind_from_none "." name 0) in Hfree. now rewrite Hfree.
Qed.

(** *** Letter case *)

Lemma lower_ascii_idem c : lower_ascii (lower_ascii c) = lower_ascii c.
Proof. destruct c as [[] [] [] [] [] [] [] []]; reflexivity. Qed.

Lemma lower_idem s : lower (lower s) = lower s.
Proof.
  induction s as [|c s IH]; simpl; [reflexivity|].
  now rewrite lower_ascii_idem, IH.
Qed.

Lemma lower_ascii_dot c : Ascii.eqb "." (lower_ascii c) = Ascii.eqb "." c.
Proof. destruct c as [[] [] [] [] [] [] [] []]; reflexivity. Qed.






Lemma startswith_dot s :
  startswith s "." = match s with
                     | EmptyString => false
                     | String c _ => Ascii.eqb "." c
                     end.
Proof.
  destruct s as [|c s]; [reflexivity|]. unfold startswith.
  cbn [String.prefix].
  destruct (Ascii.ascii_dec "." c) as [<-|H].
  - now destruct s.
  - symmetry. now apply Ascii.eqb_neq.
Qed.

Lemma startswith_dot_lower s : startswith (lower s) "." = startswith s ".".
Proof.
  rewrite !startswith_dot. destruct s as [|c s]; [reflexivity|].
  cbn [lower]. apply lower_ascii_dot.
Qed.


Lemma lower_eqb_empty s : String.eqb (lower s) "" = String.eqb s "".
Proof. now destruct s. Qed.




(** An entry of [media_extensions] that can be the lower-cased suffix
    of a name: it has no upper-case letter, and it is empty or begins
    with a dot. *)
Definition can_match (ext : string) : bool :=
  String.eqb ext (lower ext) &&
  (String.eqb ext "" || startswith ext ".").

Lemma suffix_dot name : suffix name = EmptyString \/ startswith (suffix name) "." = true.
Proof.
  unfold suffix, rfind.
  destruct (rfind_from "." name 0) as [i|] eqn:E; [|now left].
  destruct (_ && _); [|now left]. right.
  apply rfind_from_some in E as (pre & ext & -> & Hfree & ->).
  simpl Nat.add. rewrite substring_skip. rewrite length_append.
  replace (_ - _)%nat with (String.length (String "." ext)) by (simpl; lia).
  rewrite substring_all, startswith_dot. reflexivity.
Qed.

Lemma str_in_can_match name exts :
  str_in (lower (suffix name)) exts
  = str_in (lower (suffix name)) (List.filter can_match exts).
Proof.
  unfold str_in. induction exts as [|e exts IH]; [reflexivity|].
  simpl. destruct (can_match e) eqn:Ec; simpl; [now rewrite IH|].
  rewrite IH. destruct (String.eqb_spec (lower (suffix name)) e) as [He|];
    [|reflexivity].
  exfalso. unfold can_match in Ec. rewrite <- He, lower_idem, String.eqb_refl in Ec.
  simpl in Ec. rewrite lower_eqb_empty, startswith_dot_lower in Ec.
  destruct (suffix_dot name) as [H|H]; rewrite H in Ec; simpl in Ec;
    [discriminate|].
  now rewrite orb_true_r in Ec.
Qed.

(** X17: an entry of [media_extensions] with an upper-case letter, or
    one that is neither empty nor begins with a dot, matches no file:
    without these entries the same files are media files. *)
Theorem only_lower_case_dotted_extensions_match :
  (forall self file,
     is_candidate self file
     = is_candidate
         (Plex.mkPlex (Plex.db_rows self)
            (List.filter can_match (Plex.media_extensions self))
            (Plex.local_library_paths self) (Plex.server self)
            (Plex.library_sections self)) file) /\
  (forall settings manager path,
     Main.is_media_file (Main.mkRescanEventHandler settings manager) path
     = Main.is_media_file
         (Main.mkRescanEventHandler
            (Settings.mkSettings (Settings.log_level settings)
               (List.filter can_match (Settings.media_extensions settings))
               (Settings.library_paths settings) (Settings.plex settings))
            manager) path).
Proof.
  split.
  - intros self file. unfold is_candidate. simpl.
    now rewrite str_in_can_match.
  - intros settings manager path. unfold Main.is_media_file, PyPath.suffix.
    simpl. now rewrite str_in_can_match.
Qed.

End Extensions.

(** * Starting the worker thread *)

Section StartOnce.
Import Threads.
Variable second : Z.

Lemma step_not_failed l st st' :
  one_caller_inv st -> callers st <> [Failed] ->
  step second l st = Some st' -> callers st' <> [Failed].
Proof.
  intros (p & Hc & Hp) Hnf Hstep.
  destruct l as [i lk pd|i now|w now]; simpl in Hstep.
  - rewrite Hc in Hstep. destruct i as [|i]; simpl in Hstep; [|discriminate].
    destruct p; try discriminate. injection Hstep as <-.
    simpl. rewrite Hc. discriminate.
  - rewrite Hc in Hstep. destruct i as [|i]; simpl in Hstep; [|discriminate].
    destruct p; simpl in Hstep; try discriminate.
    + injection Hstep as <-. simpl. rewrite Hc. discriminate.
    + injection Hstep as <-. simpl. rewrite Hc.
      destruct (no_live_timer st); discriminate.
    + injection Hstep as <-. simpl. rewrite Hc. discriminate.
    + destruct Hp as (_ & t & Ht & Hcre & _). rewrite Ht in Hstep.
      rewrite bool_decide_eq_true_2 in Hstep by assumption.
      injection Hstep as <-. simpl. rewrite Hc. discriminate.
  - destruct (threads st !! w) as [[| |]|]; try discriminate.
    injection Hstep as <-. unfold worker_pass.
    destruct (stop_event st); simpl; assumption.
Qed.

(** X18: when one thread makes the calls, the thread that
    [add_scan_request] starts is always the one it has just created:
    [start()] never raises, whatever the turns of the workers in between. *)
Theorem one_caller_start_never_fails delay schedule st :
  exec second schedule (init delay 1) = Some st -> callers st <> [Failed].
Proof.
  assert (H : forall st0, one_caller_inv st0 -> callers st0 <> [Failed] ->
            exec second schedule st0 = Some st -> callers st <> [Failed]).
  { induction schedule as [|l rest IH]; intros st0 Hinv Hnf H; simpl in H.
    - now injection H as <-.
    - destruct (step second l st0) as [st1|] eqn:E; [|discriminate].
      apply (IH st1); [| |assumption].
      + now apply (step_one_caller_inv second l st0).
      + now apply (step_not_failed l st0). }
  apply H; [apply one_caller_inv_init | discriminate].
Qed.

End StartOnce.

Lemma one_caller_start_never_fails_witness :
  exists st,
    Threads.exec 1 one_call (Threads.init 30 1) = Some st /\
    Threads.callers st <> [Threads.Failed].
Proof.
  eexists. split; [vm_compute; reflexivity|].
  apply (one_caller_start_never_fails 1 30 one_call).
  vm_compute. reflexivity.
Defined.

(** Two threads call at the same time: both create a thread, the second
    one made is the one [self.timer_thread] refers to, and both callers
    start that one. The second [start()] raises [RuntimeError]; the thread
    that was made first is never started. *)
Definition double_start : list Threads.label :=
  [Threads.Enter 0 1 "/lib/a"; Threads.Enter 1 2 "/lib/b";
   Threads.Step 0 0; Threads.Step 1 0;     (* the entries *)
   Threads.Step 0 0; Threads.Step 1 0;     (* the tests: no live worker *)
   Threads.Step 0 0; Threads.Step 1 0;     (* both threads are created *)
   Threads.Step 0 0; Threads.Step 1 0].    (* both callers start the second *)

Example double_start_fails :
  exists st,
    Threads.exec 1 double_start (Threads.init 30 2) = Some st /\
    Threads.callers st = [Threads.Outside; Threads.Failed] /\
    Threads.threads st = [Threads.Created; Threads.Running].
Proof. eexists. split; [vm_compute; reflexivity|]. now split. Qed.

(** * The start of [main] *)

Section StartupMore.
Import Plex Database.

Variable path_exists : string -> bool.
Variable os_walk : string -> list (string * list string * list string).
Variable path_str : string -> string -> string.
Variable select_raises : Z -> string -> bool.
Variable update_outcome : Z -> string -> option exn.





End StartupMore.

(** *** A start with a store left by an earlier run

    The database file holds a row for new.mkv; the server lists
    movie.mkv alone. The row does not survive [connect], and new.mkv is
    requested. *)

Definition settings_a : Settings.Settings :=
  Settings.mkSettings "INFO" Settings.default_media_extensions
    ["/lib/a"%string] Settings.default_plex.

Definition server_a : option (list Plex.ServerSection) :=
  Some [Plex.mkServerSection lib_a [Plex.VideoItem [[Some movie]]]].

Definition stale_disk : gmap string Database.node :=
  {[ Main.db_file := Database.DbFile (Some [Database.mkRow 1 new_file]) ]}.

Definition fresh_disk : gmap string Database.node :=
  {[ Main.db_file := Database.DbFile (Some [Database.mkRow 1 movie]) ]}.

Example start_after_an_earlier_run :
  Main.main always walk_a join_path never no_exception settings_a server_a
    stale_disk
  = Main.Watching [(1, new_file)] fresh_disk.
Proof. vm_compute. reflexivity. Qed.


(** ** How the start can end *)

Section StartupOutcome.
Import Plex Database.

Variable path_exists : string -> bool.
Variable os_walk : string -> list (string * list string * list string).
Variable path_str : string -> string -> string.
Variable select_raises : Z -> string -> bool.
Variable update_outcome : Z -> string -> option exn.




End StartupOutcome.

(** * The walk and the handler on the same file *)

Section WalkAndHandler.
Import PyStr.

(** A file name as [os.walk] gives it: not empty, not a dot, without a
    slash. *)
Definition plain_name (file : string) : Prop :=
  file <> EmptyString /\ file <> "."%string /\ free_of "/" file.

Lemma split_plain file : free_of "/" file -> PyPath.split file = [file].
Proof.
  induction file as [|c file IH]; [reflexivity|].
  intros [Hc Hfree]. cbn [PyPath.split].
  destruct (Ascii.eqb_spec c "/") as [->|_]; [contradiction|].
  now rewrite IH.
Qed.

Lemma split_not_nil path : PyPath.split path <> [].
Proof.
  destruct path as [|c path]; [discriminate|]. cbn [PyPath.split].
  destruct (Ascii.eqb c "/"); [discriminate|].
  destruct (PyPath.split path); discriminate.
Qed.

Lemma split_join dir file :
  PyPath.split (dir ++ String "/" file) = PyPath.split dir ++ PyPath.split file.
Proof.
  induction dir as [|c dir IH]; [reflexivity|].
  rewrite append_String. cbn [PyPath.split]. rewrite IH.
  destruct (Ascii.eqb c "/"); [reflexivity|].
  pose proof (split_not_nil dir) as Hne.
  destruct (PyPath.split dir); [contradiction | reflexivity].
Qed.

Lemma tail_join dir file :
  plain_name file ->
  PyPath.tail (dir ++ String "/" file) = PyPath.tail dir ++ [file].
Proof.
  intros (H1 & H2 & H3). unfold PyPath.tail.
  rewrite split_join, List.filter_app, (split_plain file H3). simpl.
  destruct (String.eqb_spec file "") as [->|_]; [contradiction|].
  destruct (String.eqb_spec file ".") as [->|_]; [contradiction|].
  reflexivity.
Qed.

Lemma last_snoc {A} (l : list A) (x d : A) : List.last (l ++ [x]) d = x.
Proof.
  induction l as [|y l IH]; [reflexivity|].
  simpl. destruct (l ++ [x]) eqn:E; [now destruct l | exact IH].
Qed.

(** X21: for a file [file] in a directory [dir], the handler sees the
    name and the directory that the walk of [full_scan] has: the media
    test of the handler is the test of the walk on the extension, only
    that the walk also leaves out the files whose names begin with a dot;
    and the directory that the handler asks to be scanned is [dir] in the
    form [pathlib] gives it. *)
Theorem walk_and_handler_agree self handler dir file :
  plain_name file ->
  Plex.media_extensions self
    = Settings.media_extensions (Main.settings handler) ->
  PyPath.name (dir ++ String "/" file) = file /\
  is_candidate self file
  = Main.is_media_file handler (dir ++ String "/" file)
    && negb (startswith file ".") /\
  PyPath.parent (dir ++ String "/" file)
  = PyPath.str (PyPath.root (dir ++ String "/" file)) (PyPath.tail dir).
Proof.
  intros Hplain Hext.
  assert (Hname : PyPath.name (dir ++ String "/" file) = file).
  { unfold PyPath.name. rewrite tail_join by assumption. apply last_snoc. }
  split; [assumption|]. split.
  - unfold is_candidate, Main.is_media_file, PyPath.suffix.
    now rewrite Hname, Hext.
  - unfold PyPath.parent. rewrite tail_join by assumption.
    now rewrite removelast_last.
Qed.

End WalkAndHandler.

Lemma walk_and_handler_agree_witness :
  PyPath.name ("/lib/a/show" ++ String "/" ".ep1.mkv") = ".ep1.mkv"%string /\
  is_candidate plex_a ".ep1.mkv"
  = Main.is_media_file (Main.handler_init Settings.default_settings)
      ("/lib/a/show" ++ String "/" ".ep1.mkv")
    && negb (PyStr.startswith ".ep1.mkv" ".") /\
  PyPath.parent ("/lib/a/show" ++ String "/" ".ep1.mkv")
  = PyPath.str (PyPath.root ("/lib/a/show" ++ String "/" ".ep1.mkv"))
      (PyPath.tail "/lib/a/show").
Proof.
  apply (walk_and_handler_agree plex_a
           (Main.handler_init Settings.default_settings)
           "/lib/a/show" ".ep1.mkv").
  - unfold plain_name. simpl. split_and!; try discriminate; exact I.
  - reflexivity.
Defined.

(** The handler takes a hidden film for a media file; the walk does not. *)
Example hidden_film :
  Main.is_media_file (Main.handler_init Settings.default_settings)
    "/lib/a/show/.ep1.mkv" = true /\
  is_candidate plex_a ".ep1.mkv" = false.
Proof. split; reflexivity. Qed.

(** * The shutdown of the handler *)

Section HandlerShutdown.
Import Main.

Variable second : Z.
Hypothesis second_pos : 0 < second.
Variable the_plex : Plex.Plex.
Variable the_settings : Settings.Settings.


End HandlerShutdown.

